(** * The fingerprint identity bridge

    A shallow embedding of the two source files of the bridge.

    The class [FingerprintId]: [normalize] on the shapes of data it tells
    apart, and [doOp] with the callbacks it registers with the reader,
    modelled as a transition function over the commands, the reports of
    the device and the completions of [dp.stopAcquire] and
    [zip.generateAsync].

    The worker process: the partitioning of an index range into
    engine-sized chunks ([verify]'s [while] loop), the queue handler that
    drives the chunks through the matching engine one at a time, and the
    [do]/[stop] message dispatch.  The worker is single-threaded: it is
    modelled as a transition function [step] over the events of its event
    loop. *)

From Stdlib Require Import ZArith Lia Bool.
From stdpp Require Import base option list strings pretty.
From Equations Require Import Equations.

Local Open Scope Z_scope.

(** * The bridge class [FingerprintId] *)

Module Bridge.

(** ** [normalize] *)

(** The values [normalize] tells apart: a string, given by its UTF-16
    code units (what [charCodeAt] returns); a [Uint8Array] or [Buffer],
    which is a view of [len] bytes at [byteOffset] of an [ArrayBuffer];
    an [ArrayBuffer]; anything else. *)
Inductive Data :=
| Str (units : list Z)
| Bytes (buffer : list Z) (byteOffset len : nat)
| ArrayBuf (bytes : list Z)
| Opaque (tag : nat).

(** [for (let i = 0; i < data.length; i++) buff[i] = data.charCodeAt(i)]
    with [n] iterations to go; storing into a [Uint8Array] keeps the value
    modulo 256. *)
Fixpoint fill_codes (units : list Z) (n i : nat) (buff : list Z) : list Z :=
  match n with
  | O => buff
  | S n' =>
      fill_codes units n' (S i)
        (<[i := default 0 (units !! i) mod 256]> buff)
  end.

Definition normalize (data : Data) : Data :=
  let data1 :=
    match data with
    | Str units =>
        (* new Uint8Array(data.length): a fresh buffer of zeros, viewed
           whole *)
        Bytes (fill_codes units (length units) 0
                 (replicate (length units) 0))
          0 (length units)
    | _ => data
    end in
  match data1 with
  | Bytes buffer _ _ => ArrayBuf buffer   (* data.buffer *)
  | _ => data1
  end.

(** The bytes a view shows. *)
Definition view_bytes (buffer : list Z) (byteOffset len : nat) : list Z :=
  take len (drop byteOffset buffer).

(** ** [doOp]: acquiring and enrolling *)

(** The operations [this.ID_ACQUIRE], [this.ID_ENROLL] and [this.ID_STOP]
    that the command table passes to [doOp], and the status strings the
    device reports to the callback of [dp.startAcquire]; [other] is any
    value that none of the cases of the [switch] is strictly equal to. *)
Inductive Op := ID_ACQUIRE | ID_ENROLL | ID_STOP.

Inductive Status :=
| disconnected | connected | error | complete | enrolled
| other.

#[global] Instance Status_eq_dec : EqDecision Status.
Proof. solve_decision. Defined.

Section Acquire.

(** A fingerprint sample or template, as the device hands it over. *)
Context {Blob : Type}.

(** The payloads [{status}], [{data}] and [{template}]; the template is
    named by the calls to [zip.file] that filled the archive. *)
Inductive Payload :=
| WithStatus (s : Status)
| WithData (d : Blob)
| WithTemplate (files : list (string * Blob)).

(** The calls [doOp] makes on its surroundings, in order:
    [this.setStatus(text[, true])],
    [this.sendMessage(this.getPrefix(name), payload)],
    [this.dp.startAcquire(enroll, callback)], [this.dp.stopAcquire(...)];
    [Throws] marks a [TypeError] on [this.fingers] being [undefined]. *)
Inductive Action :=
| SetStatus (text : string) (priority : bool)
| SendMessage (name : string) (p : Payload)
| DpStartAcquire (enroll : bool)
| DpStopAcquire
| Throws.

(** The callbacks [doOp] passes to its local function [stopAcquire]. *)
Inductive Continuation :=
| ThenStart (op : Op)
| ThenAcquired (data : Blob)
| ThenPack (data : Blob).

(** The object: [this.ready], [this.enrollWithSamples], [this.fingers]
    ([None] while the field has never been assigned), the callback
    registered last with [dp.startAcquire] (its [op] and its [xstatus],
    [None] for [null]), the callbacks [dp.stopAcquire] has not called
    back yet, the archives [zip.generateAsync] has not delivered yet, and
    the calls made so far. *)
Record Object := {
  ready : bool;
  enrollWithSamples : bool;
  fingers : option (list Blob);
  session : option (Op * option Status);
  stopping : list Continuation;
  packing : list (list (string * Blob));
  out : list Action
}.

Definition emit (a : Action) (b : Object) : Object :=
  {| ready := ready b; enrollWithSamples := enrollWithSamples b;
     fingers := fingers b; session := session b; stopping := stopping b;
     packing := packing b; out := out b ++ [a] |}.

Definition set_fingers (f : option (list Blob)) (b : Object) : Object :=
  {| ready := ready b; enrollWithSamples := enrollWithSamples b;
     fingers := f; session := session b; stopping := stopping b;
     packing := packing b; out := out b |}.

Definition set_session (s : option (Op * option Status)) (b : Object)
    : Object :=
  {| ready := ready b; enrollWithSamples := enrollWithSamples b;
     fingers := fingers b; session := s; stopping := stopping b;
     packing := packing b; out := out b |}.

Definition set_stopping (l : list Continuation) (b : Object) : Object :=
  {| ready := ready b; enrollWithSamples := enrollWithSamples b;
     fingers := fingers b; session := session b; stopping := l;
     packing := packing b; out := out b |}.

Definition set_packing (l : list (list (string * Blob))) (b : Object)
    : Object :=
  {| ready := ready b; enrollWithSamples := enrollWithSamples b;
     fingers := fingers b; session := session b; stopping := stopping b;
     packing := l; out := out b |}.

Definition is_enroll (op : Op) : bool :=
  match op with ID_ENROLL => true | _ => false end.

(** [startAcquire]: [setStatus('Starting acquire'); if (op ===
    this.ID_ENROLL) this.fingers = []; let xstatus = null;
    this.dp.startAcquire(op === this.ID_ENROLL ? true : false, ...)]. *)
Definition startAcquire (op : Op) (b : Object) : Object :=
  let b1 := emit (SetStatus "Starting acquire" false) b in
  let b2 := if is_enroll op then set_fingers (Some []) b1 else b1 in
  emit (DpStartAcquire (is_enroll op)) (set_session (Some (op, None)) b2).

(** The files of the archive: [zip.file('TMPL', data)], then, with
    [enrollWithSamples], [zip.file(util.format('S%s', i + 1),
    this.fingers[i])] for every [i]. *)
Definition files (with_samples : bool) (samples : list Blob) (data : Blob)
    : list (string * Blob) :=
  ("TMPL", data) ::
  (if with_samples
   then imap (fun i f => ("S" +:+ pretty (S i), f)) samples
   else []).

(** The callback of the [enrolled] status, up to [zip.generateAsync]. *)
Definition pack (data : Blob) (b : Object) : Object :=
  if enrollWithSamples b then
    match fingers b with
    | Some samples =>
        set_packing (packing b ++ [files true samples data]) b
    | None => emit Throws b
    end
  else set_packing (packing b ++ [files false [] data]) b.

(** Running one of the callbacks passed to [stopAcquire]. *)
Definition resume (k : Continuation) (b : Object) : Object :=
  match k with
  | ThenStart op =>
      match op with
      | ID_STOP => b
      | _ => startAcquire op b
      end
  | ThenAcquired data =>
      emit (SendMessage "acquire-complete" (WithData data)) b
  | ThenPack data => pack data b
  end.

(** [stopAcquire(callback)], with [acquiring] the answer of
    [this.dp.isAcquiring()]. *)
Definition stopAcquire (acquiring : bool) (k : Continuation) (b : Object)
    : Object :=
  let b1 := emit (SetStatus "Stopping acquire" false) b in
  if acquiring then
    set_stopping (stopping b1 ++ [k]) (emit DpStopAcquire b1)
  else resume k (emit (SetStatus "Stop not required" false) b1).

(** [doOp(op)]. *)
Definition doOp (op : Op) (acquiring : bool) (b : Object) : Object :=
  if ready b then stopAcquire acquiring (ThenStart op) b else b.

(** The [disconnected] and [connected] cases of the callback. *)
Definition link (op : Op) (xstatus : option Status) (status : Status)
    (text : string) (b : Object) : Object :=
  if decide (xstatus = Some status) then b
  else
    emit (SendMessage
            (if is_enroll op then "enroll-status" else "acquire-status")
            (WithStatus status))
      (emit (SetStatus text true)
         (set_session (Some (op, Some status)) b)).

(** The callback [(status, data) => { switch (status) ... }] registered by
    [startAcquire]; [acquiring] is what [this.dp.isAcquiring()] answers if
    the case asks. *)
Definition on_device (status : Status) (data : Blob) (acquiring : bool)
    (b : Object) : Object :=
  match session b with
  | None => b
  | Some (op, xstatus) =>
      match status with
      | disconnected =>
          link op xstatus status "Connect fingerprint reader" b
      | connected => link op xstatus status "Swipe your finger" b
      | error =>
          emit (SendMessage
                  (if is_enroll op then "enroll-status"
                   else "acquire-status")
                  (WithStatus status))
            (emit (SetStatus "Error occured, try again" true) b)
      | complete =>
          if is_enroll op then
            let b1 := emit (SetStatus "Enroll completed" true) b in
            match fingers b1 with
            | Some samples =>
                emit (SendMessage "enroll-complete" (WithData data))
                  (set_fingers (Some (samples ++ [data])) b1)
            | None => emit Throws b1
            end
          else
            stopAcquire acquiring (ThenAcquired data)
              (emit (SetStatus "Acquire completed" true) b)
      | enrolled =>
          stopAcquire acquiring (ThenPack data)
            (emit (SetStatus "Enroll finished" true) b)
      | other => b
      end
  end.

(** What happens to the object: a command reaches [doOp], the device
    reports a status, [dp.stopAcquire] calls back the [n]-th callback it
    still holds, or the [n]-th pending archive is delivered. *)
Inductive Event :=
| Command (op : Op) (acquiring : bool)
| Device (status : Status) (data : Blob) (acquiring : bool)
| Stopped (n : nat)
| Generated (n : nat).

Definition step (b : Object) (ev : Event) : Object :=
  match ev with
  | Command op acquiring => doOp op acquiring b
  | Device status data acquiring => on_device status data acquiring b
  | Stopped n =>
      match stopping b !! n with
      | Some k =>
          (* () => { this.setStatus('Acquire stopped'); callback(); } *)
          resume k
            (emit (SetStatus "Acquire stopped" false)
               (set_stopping (delete n (stopping b)) b))
      | None => b
      end
  | Generated n =>
      match packing b !! n with
      | Some fs =>
          (* .then(buffer => { setStatus(...); sendMessage(...) }) *)
          emit (SendMessage "enroll-finished" (WithTemplate fs))
            (emit (SetStatus "Notify for enroll finished" false)
               (set_packing (delete n (packing b)) b))
      | None => b
      end
  end.

Definition run (b : Object) (evs : list Event) : Object :=
  fold_left step evs b.

(** *** Vocabulary of the statements *)

Definition is_device (ev : Event) : bool :=
  match ev with Device _ _ _ => true | _ => false end.

Definition is_link (s : Status) : bool :=
  match s with disconnected | connected => true | _ => false end.

(** The [disconnected]/[connected] statuses among the device reports, and
    among the status messages sent. *)
Definition link_events (evs : list Event) : list Status :=
  omap (fun ev => match ev with
                  | Device s _ _ => if is_link s then Some s else None
                  | _ => None
                  end) evs.

Definition link_reports (acts : list Action) : list Status :=
  omap (fun a => match a with
                 | SendMessage _ (WithStatus s) =>
                     if is_link s then Some s else None
                 | _ => None
                 end) acts.

(** A list of statuses with every status that repeats its predecessor
    left out; [prev] stands before the list. *)
Fixpoint squeeze (prev : option Status) (l : list Status) : list Status :=
  match l with
  | [] => []
  | s :: r =>
      if decide (prev = Some s) then squeeze prev r
      else s :: squeeze (Some s) r
  end.

(** The samples of the [complete] reports. *)
Definition completes (evs : list Event) : list Blob :=
  omap (fun ev => match ev with
                  | Device complete d _ => Some d
                  | _ => None
                  end) evs.

Definition is_enrolled (ev : Event) : bool :=
  match ev with Device enrolled _ _ => true | _ => false end.

(** The payloads of the messages sent under [name]. *)
Definition data_reports (name : string) (acts : list Action) : list Blob :=
  omap (fun a => match a with
                 | SendMessage n (WithData d) =>
                     if decide (n = name) then Some d else None
                 | _ => None
                 end) acts.

Definition template_reports (acts : list Action)
    : list (list (string * Blob)) :=
  omap (fun a => match a with
                 | SendMessage n (WithTemplate fs) =>
                     if decide (n = "enroll-finished") then Some fs else None
                 | _ => None
                 end) acts.

(** The samples whose [acquire-complete] message waits for
    [dp.stopAcquire] to call back. *)
Definition acquired_pending (ks : list Continuation) : list Blob :=
  omap (fun k => match k with ThenAcquired d => Some d | _ => None end) ks.

(** The samples of an acquire that were reported or wait to be. *)
Definition acquired (b : Object) : list Blob :=
  data_reports "acquire-complete" (out b) ++ acquired_pending (stopping b).

Definition is_restart (k : Continuation) : bool :=
  match k with ThenStart _ => true | _ => false end.

Definition is_report (ev : Event) : bool :=
  match ev with Device _ _ _ | Stopped _ => true | _ => false end.

(** The events of a command that starts at once, or after the device
    stopped. *)
Definition command (op : Op) (acquiring : bool) (b : Object) : list Event :=
  Command op acquiring ::
  (if acquiring then [Stopped (length (stopping b))] else []).

(** The events from the [enrolled] report to the delivery of the archive:
    the device stops first if it is acquiring. *)
Definition finish (tmpl : Blob) (acquiring : bool) (b : Object)
    : list Event :=
  Device enrolled tmpl acquiring ::
  (if acquiring then [Stopped (length (stopping b))] else []) ++
  [Generated (length (packing b))].

(** The object as [init] leaves it: [ready] is what [dp.init] answered,
    [enrollWithSamples] the option of that name ([true] if it is not
    given); nothing was started and [this.fingers] is not assigned. *)
Definition initial (dp_init with_samples : bool) : Object :=
  {| ready := dp_init; enrollWithSamples := with_samples;
     fingers := None; session := None; stopping := []; packing := [];
     out := [] |}.

End Acquire.

Arguments Payload : clear implicits.
Arguments Action : clear implicits.
Arguments Continuation : clear implicits.
Arguments Object : clear implicits.
Arguments Event : clear implicits.

End Bridge.

(** * The worker *)

(** ** Data model *)

(** A work item as the coordinator sends it: [work.id], [work.items],
    [work.feature]. *)
Record Work (Template : Type) := {
  work_id : string;
  items : list Template;
  feature : Template
}.
Arguments work_id {Template} _.
Arguments items {Template} _.
Arguments feature {Template} _.

(** The object [data = { start: current, fmds: [] }] pushed on [fps].  An
    entry of [fmds] is [None] where [work.items[current + i]] is
    [undefined]. *)
Record Chunk (Template : Type) := {
  start : Z;
  fmds : list (option Template)
}.
Arguments start {Template} _.
Arguments fmds {Template} _.

(** The outbound message [{cmd: 'done', work, matched, worker}]. *)
Module Msg.
Record t (Template : Type) := {
  cmd : string;
  work : Work Template;
  matched : option Z;
  worker : Z
}.
Arguments cmd {Template} _.
Arguments work {Template} _.
Arguments matched {Template} _.
Arguments worker {Template} _.
End Msg.

(** What [log] and [error] write to the debug channel. *)
Inductive LogEntry :=
| LogVerifying (wid : string) (first last : Z)
| LogErr
| LogFound (index : Z)
| LogDone (samples : Z)
| LogStopping.

(** One activation of [verify]: its parameter [work], its locals [count]
    and [matched], and the [Queue] object it creates ([queues] are the
    chunks not yet handed to the handler, [listening] tells whether the
    [once('done')] listener is still registered). *)
Record SearchState (Template : Type) := {
  work : Work Template;
  count : Z;
  matched : option Z;
  queues : list (Chunk Template);
  listening : bool
}.
Arguments work {Template} _.
Arguments count {Template} _.
Arguments matched {Template} _.
Arguments queues {Template} _.
Arguments listening {Template} _.

(** The worker process: the module variables [stop] and [queue] (a
    reference to the activation owning the live [Queue], or [null]), the
    activations created so far, the [identify] promises that have not
    settled yet (with the activation whose callbacks they carry), every
    chunk handed to [dpfp.identify] so far, the messages sent, and the
    debug channel. *)
Record State (Template : Type) := {
  stop : bool;
  queue : option nat;
  heap : list (SearchState Template);
  calls : list (nat * Chunk Template);
  submitted : list (Chunk Template);
  sent : list (Msg.t Template);
  debug : list LogEntry
}.
Arguments stop {Template} _.
Arguments queue {Template} _.
Arguments heap {Template} _.
Arguments calls {Template} _.
Arguments submitted {Template} _.
Arguments sent {Template} _.
Arguments debug {Template} _.

(** Inbound messages ([data.cmd]) and the settling of an [identify]
    promise. *)
Inductive Command (Template : Type) :=
| Do (w : Work Template) (first last : Z)
| Stop
| Other.
Arguments Do {Template} _ _ _.
Arguments Stop {Template}.
Arguments Other {Template}.

Inductive Settled :=
| Resolved (idx : Z)
| Rejected.

Inductive Event (Template : Type) :=
| Message (c : Command Template)
| Settle (n : nat) (r : Settled).
Arguments Message {Template} _.
Arguments Settle {Template} _ _.

(** A work item of ten templates, one of two, an engine binding that never
    throws and one that always does, for the concrete runs below. *)
Definition sample : Work nat :=
  {| work_id := "w1";
     items := [100; 101; 102; 103; 104; 105; 106; 107; 108; 109]%nat;
     feature := 105%nat |}.

Definition short_sample : Work nat :=
  {| work_id := "w2"; items := [100; 101]%nat; feature := 105%nat |}.

Definition never_throws : nat → list (option nat) → bool := fun _ _ => false.


(** An engine binding that throws on the chunks whose first template is
    [t], and on no other. *)
Definition throws_on (t : nat) : nat → list (option nat) → bool :=
  fun _ l => match l with Some t' :: _ => Nat.eqb t' t | _ => false end.

Section Worker.

Context {Template : Type}.

(** Modelled from the spec: [dpfp.getIdentificationLen()] belongs to the
    native engine binding, which is not part of this repository; the
    engine contract gives it as a positive integer, read once. *)
Variable identifyCount : positive.

(** [Worker.id]. *)
Variable worker_id : Z.

(** Modelled from the spec: [dpfp.identify] belongs to the native engine
    binding.  A call either throws before returning a promise (the
    [try]/[catch] path), which this predicate decides, or returns a
    promise that settles later (an [Event]). *)
Variable identify_throws : Template -> list (option Template) -> bool.

Local Abbreviation Work := (Work Template).
Local Abbreviation Chunk := (Chunk Template).
Local Abbreviation SearchState := (SearchState Template).
Local Abbreviation State := (State Template).
Local Abbreviation Event := (Event Template).

(** ** The partitioner: the loops of [verify] *)

(** [work.items[j]]: [undefined] outside the array. *)
Definition item_at (w : Work) (j : Z) : option Template :=
  if j <? 0 then None else items w !! Z.to_nat j.

(** [for (let i = 0; i < identifyCount; i++) { if (current + i > end)
    break; data.fmds.push(work.items[current + i]); }], with [n] the
    number of iterations the bound still allows. *)
Fixpoint fill (w : Work) (last current : Z) (n : nat) (i : Z)
    (acc : list (option Template)) : list (option Template) :=
  match n with
  | O => acc
  | S n' =>
      if current + i >? last then acc
      else fill w last current n' (i + 1) (acc ++ [item_at w (current + i)])
  end.

Definition data (w : Work) (last current : Z) : Chunk :=
  {| start := current;
     fmds := fill w last current (Pos.to_nat identifyCount) 0 [] |}.

(** [while (current <= end && !stop) { ...; fps.push(data);
    current += identifyCount; }] *)
Equations? while_loop (w : Work) (last : Z) (stopped : bool)
    (current : Z) (fps : list Chunk) : list Chunk
    by wf (Z.to_nat (last - current + 1)) lt :=
  while_loop w last stopped current fps
    with decide (current <= last ∧ stopped = false) => {
    | left _ :=
        while_loop w last stopped (current + Z.pos identifyCount)
          (fps ++ [data w last current]);
    | right _ := fps }.
Proof. lia. Qed.

(** The chunk list [fps] that [verify(work, start, end)] hands to the
    queue. *)
Definition verify_fps (w : Work) (first last : Z) (stopped : bool)
    : list Chunk :=
  while_loop w last stopped first [].

(** ** The queue and the callbacks of [verify] *)

(** Field updates of the worker state. *)
Definition set_stop (b : bool) (st : State) : State :=
  {| stop := b; queue := queue st; heap := heap st; calls := calls st;
     submitted := submitted st; sent := sent st; debug := debug st |}.

Definition set_queue (q : option nat) (st : State) : State :=
  {| stop := stop st; queue := q; heap := heap st; calls := calls st;
     submitted := submitted st; sent := sent st; debug := debug st |}.

Definition set_heap (h : list SearchState) (st : State) : State :=
  {| stop := stop st; queue := queue st; heap := h; calls := calls st;
     submitted := submitted st; sent := sent st; debug := debug st |}.

Definition set_calls (cs : list (nat * Chunk)) (st : State) : State :=
  {| stop := stop st; queue := queue st; heap := heap st; calls := cs;
     submitted := submitted st; sent := sent st; debug := debug st |}.

(** [dpfp.identify(work.feature, d.fmds)] is entered with chunk [d]. *)
Definition submit (d : Chunk) (st : State) : State :=
  {| stop := stop st; queue := queue st; heap := heap st; calls := calls st;
     submitted := submitted st ++ [d]; sent := sent st; debug := debug st |}.

(** [Worker.send(m)]. *)
Definition send (m : Msg.t Template) (st : State) : State :=
  {| stop := stop st; queue := queue st; heap := heap st; calls := calls st;
     submitted := submitted st; sent := sent st ++ [m]; debug := debug st |}.

(** [log(...)] and [error(...)]: both forward to [debug]. *)
Definition log (e : LogEntry) (st : State) : State :=
  {| stop := stop st; queue := queue st; heap := heap st; calls := calls st;
     submitted := submitted st; sent := sent st; debug := debug st ++ [e] |}.

(** Updates of one activation. *)
Definition set_matched (m : option Z) (c : SearchState) : SearchState :=
  {| work := work c; count := count c; matched := m; queues := queues c;
     listening := listening c |}.

Definition set_queues (l : list Chunk) (c : SearchState) : SearchState :=
  {| work := work c; count := count c; matched := matched c; queues := l;
     listening := listening c |}.

Definition add_count (n : Z) (c : SearchState) : SearchState :=
  {| work := work c; count := count c + n; matched := matched c;
     queues := queues c; listening := listening c |}.

Definition unlisten (c : SearchState) : SearchState :=
  {| work := work c; count := count c; matched := matched c;
     queues := queues c; listening := false |}.

Definition update (k : nat) (f : SearchState -> SearchState) (st : State) : State :=
  set_heap (alter f k (heap st)) st.

(** The message [{cmd: 'done', work: work, matched: matched, worker:
    Worker.id}]. *)
Definition done_msg (c : SearchState) : Msg.t Template :=
  {| Msg.cmd := "done"; Msg.work := work c; Msg.matched := matched c;
     Msg.worker := worker_id |}.

(** Modelled from the spec: the class [Queue] comes from the package
    [@ntlab/work], which is not part of this repository.  Following the
    Sequential Search Controller of the specification and the way
    [verify] uses the class: [new Queue(fps, handler)] hands the first
    chunk to the handler only once [verify] has returned (so [queue] is
    assigned and the [done] listener registered); [next()] removes the
    first pending chunk and hands it to the handler, or emits [done] when
    none is left; [done()] emits [done]; [clear()] drops the pending
    chunks.

    [emit_done k] is the [done] event of the queue of activation [k]; the
    listener registered with [once] runs at most once:
    [queue = null; log('Done verifying %d sample(s)', count);
     Worker.send({cmd: 'done', ...})]. *)
Definition emit_done (k : nat) (st : State) : State :=
  match heap st !! k with
  | Some c =>
      if listening c then
        send (done_msg c)
          (log (LogDone (count c))
             (set_queue None (update k unlisten st)))
      else st
  | None => st
  end.

(** Modelled from the spec: [next()] of the class [Queue] (see
    [emit_done]) on the queue of activation [k] whose pending chunks are
    [pending]; the handler it calls is the one [verify] passes in:
    [count += d.fmds.length; dpfp.identify(work.feature, d.fmds)...].
    When [identify] throws, [catch (err) { errNext(err) }] logs the error
    and calls [queue.next()] again; [queue] is the very queue that is
    running the handler. *)
Fixpoint queue_next (k : nat) (w : Work) (pending : list Chunk)
    (st : State) : State :=
  match pending with
  | [] => emit_done k st
  | d :: rest =>
      let st1 :=
        submit d
          (update k (add_count (Z.of_nat (length (fmds d))))
             (update k (set_queues rest) st)) in
      if identify_throws (feature w) (fmds d)
      then queue_next k w rest (log LogErr st1)
      else set_calls (calls st1 ++ [(k, d)]) st1
  end.

(** [if (queue) { queue.next(); }] *)
Definition next (st : State) : State :=
  match queue st with
  | Some k =>
      match heap st !! k with
      | Some c => queue_next k (work c) (queues c) st
      | None => st
      end
  | None => st
  end.

(** [errNext]: [error('FP> [%d] Err: %s', ...); if (queue) queue.next()]. *)
Definition errNext (st : State) : State := next (log LogErr st).

(** The [.then] callback of the promise of chunk [d], created by
    activation [k], called with [idx].  With [queue] already [null],
    [queue.done()] throws inside the callback and [.catch] passes the
    error to [errNext]. *)
Definition on_resolved (k : nat) (d : Chunk) (idx : Z) (st : State)
    : State :=
  if 0 <=? idx then
    let st1 :=
      update k (set_matched (Some (start d + idx)))
        (log (LogFound (start d + idx)) st) in
    match queue st1 with
    | Some q => emit_done q st1
    | None => errNext st1
    end
  else next st.

(** [verify(work, start, end)]. *)
Definition verify (w : Work) (first last : Z) (st : State) : State :=
  let st1 := log (LogVerifying (work_id w) first last) st in
  let fps := verify_fps w first last (stop st1) in
  let k := length (heap st1) in
  let c := {| work := w; count := 0; matched := None; queues := fps;
              listening := true |} in
  next (set_queue (Some k) (set_heap (heap st1 ++ [c]) st1)).

(** [Worker.on('message', data => { switch (data.cmd) ... })]. *)
Definition on_message (c : Command Template) (st : State) : State :=
  match c with
  | Do w first last => verify w first last (set_stop false st)
  | Stop =>
      let st1 := set_stop true st in
      match queue st1 with
      | Some k =>
          emit_done k
            (update k (set_queues []) (log LogStopping st1))
      | None => st1
      end
  | Other => st
  end.

(** One turn of the event loop. *)
Definition step (st : State) (ev : Event) : State :=
  match ev with
  | Message c => on_message c st
  | Settle n r =>
      match calls st !! n with
      | Some (k, d) =>
          let st1 := set_calls (delete n (calls st)) st in
          match r with
          | Resolved idx => on_resolved k d idx st1
          | Rejected => errNext st1
          end
      | None => st
      end
  end.

Definition run (st : State) (evs : list Event) : State :=
  fold_left step evs st.

(** The worker right after the module is loaded. *)
Definition init : State :=
  {| stop := false; queue := None; heap := []; calls := [];
     submitted := []; sent := []; debug := [] |}.


(** ** Vocabulary of the statements *)


(** [d.fmds.length] *)
Definition size (d : Chunk) : Z := Z.of_nat (length (fmds d)).

(** The template indices a chunk stands for. *)
Definition indices (d : Chunk) : list Z := seqZ (start d) (size d).

(** Number of templates in a list of chunks. *)
Definition total (l : list Chunk) : Z := foldr (fun d n => size d + n) 0 l.

(** [covers batch lo hi l]: the chunks of [l] tile the range from [lo] to
    [hi], each one starting right after the previous one, none empty,
    none larger than [batch], and only the last one smaller. *)
Fixpoint covers (batch lo hi : Z) (l : list Chunk) : Prop :=
  match l with
  | [] => hi < lo
  | d :: r =>
      start d = lo ∧ 0 < size d <= batch ∧ lo + size d - 1 <= hi ∧
      (r ≠ [] → size d = batch) ∧ covers batch (lo + size d) hi r
  end.

(** The sample counts reported by the [done] listener so far. *)
Definition done_counts (st : State) : list Z :=
  omap (fun e => match e with LogDone c => Some c | _ => None end)
    (debug st).

(** No search is active and no engine call is outstanding. *)
Definition idle (st : State) : Prop := queue st = None ∧ calls st = [].


Definition is_do (ev : Event) : bool :=
  match ev with Message (Do _ _ _) => true | _ => false end.

(** An engine answer that is not a match. *)
Definition no_match (r : Settled) : Prop :=
  match r with Resolved idx => idx < 0 | Rejected => True end.

(** The search started by [do] as activation [k] on the chunk list
    [fps], seen from the state [st0] in which the command arrived:
    while it runs, chunk number [n] is with the engine and the chunks up
    to it have been submitted and counted. *)
Definition running (k : nat) (w : Work) (fps : list Chunk) (st0 : State)
    (n : nat) (d : Chunk) (st : State) : Prop :=
  fps !! n = Some d ∧ queue st = Some k ∧
  heap st !! k =
    Some {| work := w; count := total (take (S n) fps); matched := None;
            queues := drop (S n) fps; listening := true |} ∧
  calls st = [(k, d)] ∧
  submitted st = submitted st0 ++ take (S n) fps ∧
  sent st = sent st0 ∧
  done_counts st = done_counts st0.

(** Once it has ended, [n] chunks have been submitted, one message with
    [matched: m] has been sent, the variable [matched] holds [mm], and
    [cs] are the engine calls still outstanding (at most the one chunk
    that was with the engine when [stop] arrived). *)
Definition finished (k : nat) (w : Work) (fps : list Chunk) (st0 : State)
    (n : nat) (m mm : option Z) (cs : list (nat * Chunk)) (st : State)
    : Prop :=
  (n <= length fps)%nat ∧ queue st = None ∧
  (∃ qs,
     heap st !! k =
       Some {| work := w; count := total (take n fps); matched := mm;
               queues := qs; listening := false |}) ∧
  calls st = cs ∧
  (cs = [] ∨ ∃ d, d ∈ fps ∧ cs = [(k, d)]) ∧
  submitted st = submitted st0 ++ take n fps ∧
  sent st = sent st0 ++
    [{| Msg.cmd := "done"; Msg.work := w; Msg.matched := m;
        Msg.worker := worker_id |}] ∧
  done_counts st = done_counts st0 ++ [total (take n fps)].

(** The single search is either running or has ended. *)
Definition tracked (k : nat) (w : Work) (fps : list Chunk) (st0 : State)
    (st : State) : Prop :=
  (∃ n d, running k w fps st0 n d st) ∨
  (∃ n m mm cs, finished k w fps st0 n m mm cs st).

(** For a [do] that arrives while calls of an earlier, stopped search may
    still be outstanding: the new search is [waiting] for the engine with
    nothing sent yet, or it has been [answered] by its one message. *)
Definition waiting (k : nat) (w : Work) (sent0 : list (Msg.t Template))
    (st : State) : Prop :=
  queue st = Some k ∧ sent st = sent0 ∧ calls st ≠ [] ∧
  ∃ c, heap st !! k = Some c ∧ listening c = true ∧ work c = w.

Definition answered (w : Work) (sent0 : list (Msg.t Template))
    (st : State) : Prop :=
  queue st = None ∧
  ∃ m, sent st = sent0 ++
         [{| Msg.cmd := "done"; Msg.work := w; Msg.matched := m;
             Msg.worker := worker_id |}].

(** What is left to do for activation [k]: the chunks its queue still
    holds while it is live, and the engine calls outstanding. *)
Definition backlog (k : nat) (st : State) : nat :=
  match queue st with
  | Some _ =>
      match heap st !! k with
      | Some c => length (queues c)
      | None => 0%nat
      end + length (calls st)
  | None => length (calls st)
  end.

(** [identify] threw on each of the chunks numbered [a] to [b - 1]. *)
Definition thrown (w : Work) (fps : list Chunk) (a b : nat) : Prop :=
  ∀ j dj, (a <= j < b)%nat → fps !! j = Some dj →
          identify_throws (feature w) (fmds dj) = true.

(** The engine contract on a resolved offset: it points into the chunk
    that was submitted. *)
Definition within_contract (st : State) (ev : Event) : Prop :=
  match ev with
  | Settle j (Resolved idx) =>
      ∀ k d, calls st !! j = Some (k, d) → idx < size d
  | _ => True
  end.

Fixpoint run_within_contract (st : State) (evs : list Event) : Prop :=
  match evs with
  | [] => True
  | ev :: rest =>
      within_contract st ev ∧ run_within_contract (step st ev) rest
  end.

(** *** A search among calls left over from earlier ones *)

(** The search started by [do] as activation [k], in whatever state
    [st0] the command arrived, is [live]: the module variable [queue]
    is its queue, nothing has been sent for it, its [matched] is still
    [null], and [sub] are the chunks handed to the engine since the
    command, which [count] adds up. *)
Definition live (k : nat) (w : Work) (st0 : State) (sub : list Chunk)
    (st : State) : Prop :=
  queue st = Some k ∧ sent st = sent st0 ∧
  done_counts st = done_counts st0 ∧
  submitted st = submitted st0 ++ sub ∧
  ∃ qs, heap st !! k =
          Some {| work := w; count := total sub; matched := None;
                  queues := qs; listening := true |}.

(** It has [ended]: its one message, with [matched: m], has been sent
    and the listener has logged the size of the chunks [sub] handed to
    the engine for it. *)
Definition ended (w : Work) (st0 : State) (m : option Z)
    (sub : list Chunk) (st : State) : Prop :=
  queue st = None ∧
  sent st = sent st0 ++
    [{| Msg.cmd := "done"; Msg.work := w; Msg.matched := m;
        Msg.worker := worker_id |}] ∧
  submitted st = submitted st0 ++ sub ∧
  done_counts st = done_counts st0 ++ [total sub].

(** What the event [ev], arriving in state [st], finds for the search of
    activation [k]: an index, if the event is an engine call of this very
    activation resolving with an offset. *)
Definition verdict (k : nat) (st : State) (ev : Event) : option Z :=
  match ev with
  | Settle j (Resolved o) =>
      match calls st !! j with
      | Some (k', d) =>
          if decide (k' = k ∧ 0 <= o) then Some (start d + o) else None
      | None => None
      end
  | _ => None
  end.

(** In the run [evs] from [st], the search of activation [k] finds the
    index [i]: while it is live, an engine call of its own, on a chunk
    [d], resolves with an offset [o >= 0] and [i = d.start + o]. *)
Definition found (k : nat) (st : State) (evs : list Event) (i : Z) : Prop :=
  ∃ evs1 j d o evs2,
    evs = evs1 ++ Settle j (Resolved o) :: evs2 ∧
    queue (run st evs1) = Some k ∧
    calls (run st evs1) !! j = Some (k, d) ∧
    0 <= o ∧ i = start d + o.

(** An event that is neither a [do] nor the settling of an engine
    call. *)
Definition is_plain (ev : Event) : bool :=
  match ev with Message Stop | Message Other => true | _ => false end.

(** *** Book-keeping over whole runs *)

(** What the book-keeping needs of the activations: the work item of each
    and whether its [done] listener is still registered. *)
Definition ledger (st : State) : list (Work * bool) :=
  (fun c => (work c, listening c)) <$> heap st.

(** Number of activations whose listener has run. *)
Fixpoint reported (l : list (Work * bool)) : nat :=
  match l with
  | [] => 0
  | (_, b) :: r => (if b then 0 else 1) + reported r
  end.

(** The [do] commands among the events: how many, and their work items. *)
Fixpoint dos (evs : list Event) : nat :=
  match evs with
  | [] => 0
  | ev :: r => (if is_do ev then 1 else 0) + dos r
  end.

Fixpoint works (evs : list Event) : list Work :=
  match evs with
  | [] => []
  | Message (Do w _ _) :: r => w :: works r
  | _ :: r => works r
  end.

(** What one turn may do to the books: nothing, or the listener of the
    live queue runs: it sends the one message of that activation and
    clears [queue]. *)
Definition quiet (st st' : State) : Prop :=
  queue st' = queue st ∧ ledger st' = ledger st ∧ sent st' = sent st.

Definition reports (st st' : State) : Prop :=
  ∃ k w m,
    queue st = Some k ∧ ledger st !! k = Some (w, true) ∧
    queue st' = None ∧ ledger st' = <[k := (w, false)]> (ledger st) ∧
    sent st' = sent st ++
      [{| Msg.cmd := "done"; Msg.work := w; Msg.matched := m;
          Msg.worker := worker_id |}].

Definition effect (st st' : State) : Prop := quiet st st' ∨ reports st st'.

(** The books are in order: as many messages as listeners that have run,
    a live queue still has its listener, and every message is a [done]
    report of this worker for the work item of some activation. *)
Definition balanced (st : State) : Prop :=
  length (sent st) = reported (ledger st) ∧
  (∀ k, queue st = Some k → ∃ w, ledger st !! k = Some (w, true)) ∧
  Forall (fun m => Msg.cmd m = "done" ∧ Msg.worker m = worker_id ∧
                   Msg.work m ∈ (ledger st).*1) (sent st).

(** An activation that is no longer the live one but whose listener has
    not run. *)
Definition orphaned (st : State) : Prop :=
  ∃ k w, ledger st !! k = Some (w, true) ∧ queue st ≠ Some k.

(** ** The partitioner tiles the range *)

Lemma while_loop_step (w : Work) last stopped current (fps : list Chunk) :
  while_loop w last stopped current fps =
  if decide (current <= last ∧ stopped = false)
  then while_loop w last stopped
         (current + Z.pos identifyCount)
         (fps ++ [data w last current])
  else fps.
Proof.
  rewrite while_loop_equation_1.
  destruct (decide _); reflexivity.
Qed.

Lemma fill_spec (w : Work) last current n i acc :
  fill w last current n i acc =
  acc ++ (item_at w <$>
            seqZ (current + i) (Z.min (Z.of_nat n) (last - current - i + 1))).
Proof.
  revert i acc. induction n as [|n IH]; intros i acc.
  - simpl. rewrite seqZ_nil by lia. simpl. by rewrite app_nil_r.
  - cbn [fill]. destruct (Z.gtb_spec (current + i) last) as [Hgt|Hle].
    + rewrite seqZ_nil by lia. simpl. by rewrite app_nil_r.
    + rewrite IH, <- app_assoc. f_equal.
      rewrite (seqZ_cons (current + i)) by lia. simpl. f_equal.
      f_equal. f_equal; lia.
Qed.

Lemma data_fmds (w : Work) last current :
  fmds (data w last current) =
  item_at w <$>
    seqZ current (Z.min (Z.pos identifyCount) (last - current + 1)).
Proof.
  unfold data. simpl. rewrite fill_spec. simpl. f_equal. f_equal; lia.
Qed.

Lemma data_size (w : Work) last current :
  current <= last →
  size (data w last current) =
  Z.min (Z.pos identifyCount) (last - current + 1).
Proof.
  intros H. unfold size. rewrite data_fmds, length_fmap, length_seqZ. lia.
Qed.

(** The loop appends to [fps] a tiling of the range from [current] to
    [last], whose chunks hold the items at their indices. *)
Lemma while_loop_covers (w : Work) last (n : nat) :
  ∀ current fps,
    (Z.to_nat (last - current + 1) <= n)%nat →
    ∃ rest,
      while_loop w last false current fps = fps ++ rest ∧
      covers (Z.pos identifyCount) current last rest ∧
      Forall (fun d => fmds d = item_at w <$> indices d) rest.
Proof.
  induction n as [|n IH]; intros current fps Hn; rewrite while_loop_step.
  - destruct (decide _) as [[Hle _]|Hno]; [lia|].
    exists []. rewrite app_nil_r. split; [done|]. split; [|constructor].
    simpl. destruct (Z.le_gt_cases current last); [tauto|lia].
  - destruct (decide _) as [[Hle _]|Hno].
    + destruct (IH (current + Z.pos identifyCount)
                  (fps ++ [data w last current]))
        as (rest & Heq & Hcov & Hfm); [lia|].
      exists (data w last current :: rest).
      rewrite Heq, <- app_assoc. split; [done|].
      pose proof (data_size w last current Hle) as Hsz.
      split.
      * simpl. split; [done|]. split; [lia|]. split; [lia|].
        destruct rest as [|d' rest'].
        -- split; [done|]. simpl in *. lia.
        -- destruct Hcov as (Hs & Hp & Hl & Hfull & Hcov).
           assert (size (data w last current) =
                   Z.pos identifyCount) as Hfullsz by lia.
           split; [done|]. rewrite Hfullsz. simpl. auto.
      * constructor; [|done].
        rewrite data_fmds. unfold indices.
        rewrite Hsz. done.
    + exists []. rewrite app_nil_r. split; [done|]. split; [|constructor].
      simpl. destruct (Z.le_gt_cases current last); [tauto|lia].
Qed.

Lemma verify_fps_covers (w : Work) first last :
  covers (Z.pos identifyCount) first last
    (verify_fps w first last false) ∧
  Forall (fun d => fmds d = item_at w <$> indices d)
    (verify_fps w first last false).
Proof.
  unfold verify_fps.
  destruct (while_loop_covers w last (Z.to_nat (last - first + 1)) first [])
    as (rest & Heq & Hcov & Hfm); [lia|].
  rewrite Heq. simpl. done.
Qed.

(** Consequences of a tiling. *)
Lemma covers_indices batch lo hi (l : list Chunk) :
  covers batch lo hi l → concat (indices <$> l) = seqZ lo (hi - lo + 1).
Proof.
  revert lo. induction l as [|d r IH]; intros lo; csimpl.
  - intros H. by rewrite seqZ_nil by lia.
  - intros (Hs & Hp & Hl & _ & Hcov). rewrite (IH _ Hcov).
    unfold indices. rewrite Hs.
    replace (hi - lo + 1) with (size d + (hi - (lo + size d) + 1)) by lia.
    symmetry. apply seqZ_app; lia.
Qed.

Lemma covers_total batch lo hi (l : list Chunk) :
  covers batch lo hi l → lo <= hi + 1 → total l = hi - lo + 1.
Proof.
  revert lo. induction l as [|d r IH]; intros lo; simpl.
  - lia.
  - intros (Hs & Hp & Hl & _ & Hcov) Hlo. rewrite (IH _ Hcov); lia.
Qed.

Lemma covers_lookup batch lo hi (l : list Chunk) i d :
  covers batch lo hi l → l !! i = Some d →
  lo <= start d ∧ 0 < size d <= batch ∧ start d + size d - 1 <= hi ∧
  covers batch (start d + size d) hi (drop (S i) l) ∧
  start d = lo + total (take i l).
Proof.
  revert lo i. induction l as [|d0 r IH]; intros lo i; [done|].
  intros (Hs & Hp & Hl & Hfull & Hcov). destruct i as [|i]; simpl.
  - intros [= <-]. rewrite drop_0, Hs. repeat split; try lia. done.
  - intros Hi. destruct (IH _ _ Hcov Hi) as (H1 & H2 & H3 & H4 & H5).
    repeat split; try lia. done.
Qed.

Lemma covers_next batch lo hi (l : list Chunk) i d d' :
  covers batch lo hi l → l !! i = Some d → l !! S i = Some d' →
  start d' = start d + size d ∧ size d = batch.
Proof.
  revert lo i. induction l as [|d0 r IH]; intros lo i; [done|].
  intros (Hs & Hp & Hl & Hfull & Hcov). destruct i as [|i]; simpl.
  - intros [= <-] Hn. destruct r as [|d1 r]; [done|].
    simpl in Hn. injection Hn as <-. destruct Hcov as (Hs' & _).
    split; [lia|]. by apply Hfull.
  - intros Hi Hn. by apply (IH _ _ Hcov Hi).
Qed.

(** ** The search controller *)

Lemma lookup_update k f (st : State) :
  heap (update k f st) !! k = f <$> heap st !! k.
Proof. unfold update. simpl. apply list_lookup_alter_eq. Qed.

Lemma total_snoc (l : list Chunk) d : total (l ++ [d]) = total l + size d.
Proof. induction l as [|x l IH]; simpl; lia. Qed.

Lemma take_S_lookup (l : list Chunk) n d :
  l !! n = Some d → take (S n) l = take n l ++ [d].
Proof. intros H. by apply take_S_r. Qed.

Lemma done_counts_log e (st : State) :
  done_counts (log e st) =
  done_counts st ++ match e with LogDone c => [c] | _ => [] end.
Proof.
  unfold done_counts. simpl. rewrite omap_app. by destruct e.
Qed.

Ltac fields :=
  cbn [stop queue heap calls submitted sent debug set_stop set_queue
       set_heap set_calls submit send log update] in *.

Lemma emit_done_listening k c (st : State) :
  heap st !! k = Some c → listening c = true →
  emit_done k st =
  send (done_msg c)
    (log (LogDone (count c)) (set_queue None (update k unlisten st))).
Proof. intros Hh Hl. unfold emit_done. by rewrite Hh, Hl. Qed.

Lemma drop_cons_inv (l : list Chunk) n d rest :
  d :: rest = drop n l → l !! n = Some d ∧ rest = drop (S n) l.
Proof.
  intros H. assert (l !! n = Some d) as Hl.
  { rewrite <- (Nat.add_0_r n), <- lookup_drop, <- H. done. }
  split; [done|]. rewrite (drop_S _ _ _ Hl) in H. by injection H.
Qed.

Section Single.

Variables (k : nat) (w : Work) (fps : list Chunk) (st0 : State).
Local Abbreviation running := (running k w fps st0).
Local Abbreviation finished := (finished k w fps st0).
Local Abbreviation thrown := (thrown w fps).

(** [queue.next()] with [n] chunks submitted so far either leaves a
    later chunk with the engine, after [identify] threw on the chunks
    in between, or ends the search without a match. *)
Lemma queue_next_spec (pending : list Chunk) :
  ∀ n (st : State),
    pending = drop n fps →
    (n <= length fps)%nat →
    queue st = Some k →
    heap st !! k =
      Some {| work := w; count := total (take n fps); matched := None;
              queues := pending; listening := true |} →
    calls st = [] →
    submitted st = submitted st0 ++ take n fps →
    sent st = sent st0 →
    done_counts st = done_counts st0 →
    let st' := queue_next k w pending st in
    stop st' = stop st ∧
    ((∃ n' d, (n <= n')%nat ∧ running n' d st' ∧ thrown n n' ∧
              identify_throws (feature w) (fmds d) = false ∧
              debug st' = debug st ++ replicate (n' - n) LogErr) ∨
     (finished (length fps) None None [] st' ∧ thrown n (length fps) ∧
      debug st' = debug st ++ replicate (length fps - n) LogErr ++
                    [LogDone (total fps)])).
Proof.
  induction pending as [|d rest IH];
    intros n st Hp Hn Hq Hh Hc Hs Hse Hd; cbn zeta.
  - cbn [queue_next].
    rewrite (emit_done_listening _ _ _ Hh eq_refl).
    assert (n = length fps) as ->.
    { apply (f_equal length) in Hp. rewrite length_drop in Hp.
      simpl in Hp. lia. }
    rewrite firstn_all in *. split; [done|]. right.
    split; [|split].
    + unfold finished. rewrite firstn_all. split; [lia|]. split; [done|].
      split.
      { eexists. fields. rewrite list_lookup_alter_eq, Hh. reflexivity. }
      split; [done|]. split; [by left|]. split; [done|]. split.
      { fields. by rewrite Hse. }
      unfold done_counts in *. fields. rewrite omap_app, Hd. done.
    + intros j dj Hj. lia.
    + fields. rewrite Nat.sub_diag. done.
  - apply drop_cons_inv in Hp as [Hl ->].
    assert (n < length fps)%nat as Hlt by (by eapply lookup_lt_Some).
    cbn [queue_next].
    set (st1 := submit d _).
    assert (heap st1 !! k =
            Some {| work := w; count := total (take (S n) fps);
                    matched := None; queues := drop (S n) fps;
                    listening := true |}) as Hh1.
    { subst st1. cbn [submit heap]. rewrite !lookup_update, Hh.
      cbn. rewrite (take_S_lookup _ _ _ Hl), total_snoc. done. }
    assert (submitted st1 = submitted st0 ++ take (S n) fps) as Hs1.
    { subst st1. cbn. rewrite Hs, (take_S_lookup _ _ _ Hl).
      by rewrite app_assoc. }
    assert (queue st1 = Some k ∧ calls st1 = [] ∧ sent st1 = sent st0 ∧
            done_counts st1 = done_counts st0 ∧ stop st1 = stop st ∧
            debug st1 = debug st)
      as (Hq1 & Hc1 & Hse1 & Hd1 & Hst1 & Hdb1) by done.
    clearbody st1.
    destruct (identify_throws (feature w) (fmds d)) eqn:Hthrow.
    + destruct (IH (S n) (log LogErr st1)) as [Hstop Hcases].
      * done.
      * lia.
      * done.
      * done.
      * done.
      * done.
      * done.
      * rewrite done_counts_log, app_nil_r. done.
      * split; [by rewrite Hstop|].
        assert (thrown n (S n)) as Hthis.
        { intros j dj Hj Hdj. assert (j = n) as -> by lia.
          rewrite Hl in Hdj. by injection Hdj as <-. }
        destruct Hcases as [(n' & d' & Hle & Hr & Hth & Hno & Hdb)|
                            (Hf & Hth & Hdb)].
        -- left. exists n', d'. split; [lia|]. split; [done|].
           split.
           { intros j dj Hj Hdj. destruct (decide (j = n)) as [->|Hne].
             - eapply Hthis; [|done]. lia.
             - eapply Hth; [|done]. lia. }
           split; [done|]. rewrite Hdb. fields. rewrite Hdb1.
           rewrite <- app_assoc.
           replace (n' - n)%nat with (S (n' - S n)) by lia. done.
        -- right. split; [done|]. split.
           { intros j dj Hj Hdj. destruct (decide (j = n)) as [->|Hne].
             - eapply Hthis; [|done]. lia.
             - eapply Hth; [|done]. lia. }
           rewrite Hdb. fields. rewrite Hdb1, <- app_assoc.
           replace (length fps - n)%nat with (S (length fps - S n))
             by lia.
           done.
    + split; [done|]. left. exists n, d. split; [lia|].
      split.
      { unfold running. fields. rewrite Hc1. done. }
      split; [intros j dj Hj; lia|]. split; [done|].
      fields. rewrite Nat.sub_diag, app_nil_r. done.
Qed.

Lemma next_idle (st : State) : queue st = None → next st = st.
Proof. intros H. unfold next. by rewrite H. Qed.

(** The state of a running search once its outstanding call has
    settled without a match: [queue.next()] takes over. *)
Lemma next_after n d (st st1 : State) (failed : bool) :
  running n d st →
  let extra := if failed then [LogErr] else [] in
  stop st1 = stop st → queue st1 = queue st → heap st1 = heap st →
  calls st1 = [] → submitted st1 = submitted st → sent st1 = sent st →
  debug st1 = debug st ++ extra →
  let st' := next st1 in
  stop st' = stop st ∧
  ((∃ n' d', (n < n')%nat ∧ running n' d' st' ∧ thrown (S n) n' ∧
             identify_throws (feature w) (fmds d') = false ∧
             debug st' =
               debug st ++ extra ++ replicate (n' - S n) LogErr) ∨
   (finished (length fps) None None [] st' ∧ thrown (S n) (length fps) ∧
    debug st' =
      debug st ++ extra ++ replicate (length fps - S n) LogErr ++
        [LogDone (total fps)])).
Proof.
  intros (Hl & Hq & Hh & Hc & Hs & Hse & Hd) extra
    E1 E2 E3 E4 E5 E6 E7 st'.
  assert (S n <= length fps)%nat as Hn
    by (apply lookup_lt_Some in Hl; lia).
  subst st'. unfold next. rewrite E2, E3, Hq, Hh. cbn [work queues].
  destruct (queue_next_spec (drop (S n) fps) (S n) st1)
    as [Hstop Hcases]; try done; try congruence.
  { unfold done_counts in *. rewrite E7, omap_app, Hd.
    subst extra. destruct failed; simpl; by rewrite app_nil_r. }
  cbn zeta in Hstop, Hcases. split; [congruence|].
  destruct Hcases as [(n' & d' & Hle & Hr & Hth & Hno & Hdb)|
                      (Hf & Hth & Hdb)].
  - left. exists n', d'. split; [lia|]. split; [done|]. split; [done|].
    split; [done|]. rewrite Hdb, E7. by rewrite <- app_assoc.
  - right. split; [done|]. split; [done|]. rewrite Hdb, E7.
    by rewrite <- app_assoc.
Qed.

(** The outstanding call of a running search settles without a match:
    the next chunk that does not throw goes to the engine, or the
    search ends with [matched: null]. *)
Lemma settle_no_match n d (st : State) r :
  running n d st → no_match r →
  let extra := match r with Rejected => [LogErr] | _ => [] end in
  let st' := step st (Settle 0 r) in
  stop st' = stop st ∧
  ((∃ n' d', (n < n')%nat ∧ running n' d' st' ∧ thrown (S n) n' ∧
             identify_throws (feature w) (fmds d') = false ∧
             debug st' =
               debug st ++ extra ++ replicate (n' - S n) LogErr) ∨
   (finished (length fps) None None [] st' ∧ thrown (S n) (length fps) ∧
    debug st' =
      debug st ++ extra ++ replicate (length fps - S n) LogErr ++
        [LogDone (total fps)])).
Proof.
  intros Hr Hno extra st'. pose proof Hr as (_ & _ & _ & Hc & _).
  subst st'. unfold step. rewrite Hc. cbn [lookup list_lookup delete list_delete].
  destruct r as [idx|].
  - simpl in Hno. unfold on_resolved.
    destruct (Z.leb_spec 0 idx) as [?|_]; [lia|].
    apply (next_after n d st _ false Hr); try done.
    fields. by rewrite app_nil_r.
  - unfold errNext. by apply (next_after n d st _ true Hr).
Qed.

(** The outstanding call of a running search resolves with an offset:
    the index is recorded and reported, and the search ends. *)
Lemma settle_match n d (st : State) idx :
  running n d st → 0 <= idx →
  let st' := step st (Settle 0 (Resolved idx)) in
  finished (S n) (Some (start d + idx)) (Some (start d + idx)) [] st' ∧
  stop st' = stop st ∧
  debug st' =
    debug st ++ [LogFound (start d + idx);
                 LogDone (total (take (S n) fps))].
Proof.
  intros (Hl & Hq & Hh & Hc & Hs & Hse & Hd) Hidx st'.
  assert (S n <= length fps)%nat as Hn
    by (apply lookup_lt_Some in Hl; lia).
  subst st'. unfold step. rewrite Hc. cbn [lookup list_lookup delete list_delete].
  unfold on_resolved. destruct (Z.leb_spec 0 idx) as [_|?]; [|lia].
  cbn zeta. fields. rewrite Hq.
  erewrite emit_done_listening; cycle 1.
  { fields. rewrite list_lookup_alter_eq, Hh. reflexivity. }
  { done. }
  split; [|split; [done|]].
  - unfold finished. fields. split; [done|]. split; [done|]. split.
    { eexists. rewrite !list_lookup_alter_eq, Hh. reflexivity. }
    split; [done|]. split; [by left|]. split; [done|]. split.
    { by rewrite Hse. }
    unfold done_counts in *. fields. rewrite !omap_app, Hd.
    by rewrite <- app_assoc.
  - fields. cbn. by rewrite <- app_assoc.
Qed.

(** [stop] arrives while the search is running. *)
Lemma stop_running n d (st : State) :
  running n d st →
  let st' := step st (Message Stop) in
  finished (S n) None None [(k, d)] st' ∧ stop st' = true ∧
  debug st' =
    debug st ++ [LogStopping; LogDone (total (take (S n) fps))].
Proof.
  intros (Hl & Hq & Hh & Hc & Hs & Hse & Hd) st'.
  assert (S n <= length fps)%nat as Hn
    by (apply lookup_lt_Some in Hl; lia).
  subst st'. unfold step, on_message. cbn zeta. fields. rewrite Hq.
  erewrite emit_done_listening; cycle 1.
  { fields. rewrite list_lookup_alter_eq, Hh. reflexivity. }
  { done. }
  split; [|split; [done|]].
  - unfold finished. fields. split; [done|]. split; [done|]. split.
    { eexists. rewrite !list_lookup_alter_eq, Hh. reflexivity. }
    split; [done|]. split.
    { right. exists d. split; [|done]. by eapply list_elem_of_lookup_2. }
    split; [done|]. split.
    { by rewrite Hse. }
    unfold done_counts in *. fields. rewrite !omap_app, Hd.
    by rewrite <- app_assoc.
  - fields. cbn. by rewrite <- app_assoc.
Qed.

(** Everything else leaves a running search as it is. *)
Lemma running_ignores n d (st : State) ev :
  running n d st →
  match ev with
  | Message Other | Settle (S _) _ => True
  | _ => False
  end →
  step st ev = st.
Proof.
  intros (Hl & Hq & Hh & Hc & Hs & Hse & Hd) Hev.
  destruct ev as [[| |]|[|j] r]; try done.
  unfold step. by rewrite Hc.
Qed.

(** After the search has ended nothing reaches the engine or the
    coordinator any more; the one call that [stop] may have left
    outstanding settles into the void. *)
Lemma finished_step n m mm cs (st : State) ev :
  finished n m mm cs st → is_do ev = false →
  ∃ mm' cs',
    finished n m mm' cs' (step st ev) ∧
    (cs' = [] ∨ cs' = cs ∧ ∀ r, ev ≠ Settle 0 r) ∧
    (mm' = mm ∨
     ∃ d idx, cs = [(k, d)] ∧ ev = Settle 0 (Resolved idx) ∧
              0 <= idx ∧ mm' = Some (start d + idx)).
Proof.
  intros (Hn & Hq & (qs & Hh) & Hc & Hcs & Hs & Hse & Hd) Hev.
  destruct ev as [[w' f l| |]|j r]; [done| | |].
  - exists mm, cs. split; [|by auto].
    unfold step, on_message. cbn zeta. fields. rewrite Hq.
    unfold finished; fields; split_and!; eauto.
  - exists mm, cs. split; [|by auto]. unfold finished; split_and!; eauto.
  - unfold step. rewrite Hc.
    destruct Hcs as [->|(d & Hin & ->)].
    { exists mm, []. split; [|by auto].
      replace (@nil (nat * Chunk) !! j) with (@None (nat * Chunk))
        by (by destruct j).
      unfold finished; split_and!; eauto. }
    destruct j as [|j]; cycle 1.
    { exists mm, [(k, d)]. split; [|by auto].
      cbn [lookup list_lookup].
      replace (@nil (nat * Chunk) !! j) with (@None (nat * Chunk))
        by (by destruct j).
      unfold finished; split_and!; eauto. }
    cbn [lookup list_lookup delete list_delete].
    destruct r as [idx|].
    + unfold on_resolved. destruct (Z.leb_spec 0 idx) as [Hidx|Hidx].
      * exists (Some (start d + idx)), []. split; [|by eauto 10].
        cbn zeta. fields. rewrite Hq. unfold errNext.
        rewrite next_idle by done.
        unfold finished. fields. split; [done|]. split; [done|]. split.
        { eexists. rewrite list_lookup_alter_eq, Hh. reflexivity. }
        split; [done|]. split; [by left|]. split; [done|].
        split; [done|].
        unfold done_counts in *. fields. rewrite !omap_app, Hd.
        cbn. by rewrite !app_nil_r.
      * exists mm, []. split; [|by auto]. rewrite next_idle by done.
        unfold finished; fields; split_and!; eauto.
    + exists mm, []. split; [|by auto]. unfold errNext.
      rewrite next_idle by done.
      unfold finished. fields. split; [done|]. split; [done|].
      split; [eauto|]. split; [done|]. split; [by left|].
      split; [done|]. split; [done|].
      unfold done_counts in *. fields. rewrite !omap_app, Hd.
      cbn. by rewrite !app_nil_r.
Qed.

Lemma finished_run evs :
  ∀ n m mm cs (st : State),
    finished n m mm cs st →
    Forall (fun ev => is_do ev = false) evs →
    ∃ mm' cs', finished n m mm' cs' (run st evs).
Proof.
  induction evs as [|ev evs IH]; intros n m mm cs st Hf Hevs.
  - exists mm, cs. done.
  - inversion Hevs as [|? ? Hev Hrest]; subst.
    destruct (finished_step n m mm cs st ev Hf Hev)
      as (mm' & cs' & Hf' & _).
    cbn [run fold_left]. eapply IH; [exact Hf'|done].
Qed.

Lemma tracked_step (st : State) ev :
  tracked k w fps st0 st → is_do ev = false →
  tracked k w fps st0 (step st ev).
Proof.
  intros [(n & d & Hr)|(n & m & mm & cs & Hf)] Hev.
  - destruct ev as [[w' f l| |]|[|j] r]; [done| | | |].
    + right. destruct (stop_running n d st Hr) as (Hf & _). eauto 10.
    + left. rewrite (running_ignores n d st) by done. eauto.
    + destruct r as [idx|].
      * destruct (Z.le_gt_cases 0 idx) as [Hidx|Hidx].
        -- right. destruct (settle_match n d st idx Hr Hidx) as (Hf & _).
           eauto 10.
        -- destruct (settle_no_match n d st (Resolved idx) Hr)
             as (_ & [(n' & d' & _ & Hr' & _)|(Hf & _)]);
             [simpl; lia| |].
           ++ left. eauto.
           ++ right. eauto 10.
      * destruct (settle_no_match n d st Rejected Hr)
          as (_ & [(n' & d' & _ & Hr' & _)|(Hf & _)]); [done| |].
        -- left. eauto.
        -- right. eauto 10.
    + left. rewrite (running_ignores n d st) by done. eauto.
  - right. destruct (finished_step n m mm cs st ev Hf Hev)
      as (mm' & cs' & Hf' & _). eauto 10.
Qed.

Lemma tracked_run evs :
  ∀ st : State,
    tracked k w fps st0 st → Forall (fun ev => is_do ev = false) evs →
    tracked k w fps st0 (run st evs).
Proof.
  induction evs as [|ev evs IH]; intros st Ht Hevs; [done|].
  inversion Hevs as [|? ? Hev Hrest]; subst.
  cbn [run fold_left]. apply IH; [|done]. by apply tracked_step.
Qed.

End Single.

(** [do] arriving at an idle worker starts a search as a fresh
    activation: either the first chunk on which [identify] does not throw
    is with the engine, or the search has already ended. *)
Lemma do_spec (st0 : State) (w : Work) first last :
  calls st0 = [] →
  let fps := verify_fps w first last false in
  let k := length (heap st0) in
  let st := step st0 (Message (Do w first last)) in
  let hello := [LogVerifying (work_id w) first last] in
  stop st = false ∧
  ((∃ n d, running k w fps st0 n d st ∧ thrown w fps 0 n ∧
           identify_throws (feature w) (fmds d) = false ∧
           debug st = debug st0 ++ hello ++ replicate n LogErr) ∨
   (finished k w fps st0 (length fps) None None [] st ∧
    thrown w fps 0 (length fps) ∧
    debug st = debug st0 ++ hello ++ replicate (length fps) LogErr ++
                 [LogDone (total fps)])).
Proof.
  intros Hc fps k st hello. subst st. unfold step, on_message, verify.
  cbn zeta. fields. fold fps. fold k. unfold next. fields.
  rewrite lookup_app_r by done. rewrite Nat.sub_diag.
  cbn [lookup list_lookup work queues].
  match goal with |- context [queue_next _ _ _ ?s] => set (st1 := s) end.
  destruct (queue_next_spec k w fps st0 fps 0 st1) as [Hstop Hcases];
    try done.
  { lia. }
  { subst st1. fields. rewrite lookup_app_r by done.
    by rewrite Nat.sub_diag. }
  { subst st1. fields. by rewrite app_nil_r. }
  { unfold done_counts. subst st1. fields. rewrite omap_app.
    cbn. by rewrite app_nil_r. }
  cbn zeta in Hstop, Hcases. split; [done|].
  destruct Hcases as [(n' & d' & Hle & Hr & Hth & Hno & Hdb)|
                      (Hf & Hth & Hdb)].
  - left. exists n', d'. split; [done|]. split; [done|]. split; [done|].
    rewrite Hdb. subst st1. fields. rewrite Nat.sub_0_r.
    by rewrite <- app_assoc.
  - right. split; [done|]. split; [done|]. rewrite Hdb. subst st1. fields.
    rewrite Nat.sub_0_r. by rewrite <- app_assoc.
Qed.

(** ** The partition of the range *)

Lemma verify_fps_empty (w : Work) first last stopped :
  last < first → verify_fps w first last stopped = [].
Proof.
  intros H. unfold verify_fps. rewrite while_loop_step.
  destruct (decide _) as [[? _]|_]; [lia|done].
Qed.

(** C1: for [start <= end] the chunks built by [verify] partition the
    inclusive range exactly: their indices, taken in order, are those of
    the range; the first chunk begins at [start], each later chunk begins
    where the previous one ended plus one (so the starts increase
    strictly), every chunk holds between one and [identifyCount]
    templates, only the last chunk may hold fewer than [identifyCount],
    the last chunk ends at [end], and the sizes add up to
    [end - start + 1]. *)
Theorem verify_partitions_range (w : Work) first last :
  first <= last →
  let fps := verify_fps w first last false in
  concat (indices <$> fps) = seqZ first (last - first + 1) ∧
  (∃ d, fps !! 0%nat = Some d ∧ start d = first) ∧
  (∀ i d d', fps !! i = Some d → fps !! S i = Some d' →
             start d' = start d + size d ∧ start d < start d' ∧
             size d = Z.pos identifyCount) ∧
  (∀ i d, fps !! i = Some d → 0 < size d <= Z.pos identifyCount) ∧
  (∀ i d, fps !! i = Some d → S i = length fps →
          start d + size d - 1 = last) ∧
  total fps = last - first + 1.
Proof.
  intros Hle fps. destruct (verify_fps_covers w first last) as [Hcov _].
  fold fps in Hcov.
  assert (total fps = last - first + 1) as Htot
    by (eapply covers_total; [done|lia]).
  split; [by eapply covers_indices|]. split.
  { destruct fps as [|d r] eqn:E; [simpl in Htot; lia|].
    exists d. split; [done|]. by destruct Hcov. }
  split.
  { intros i d d' Hd Hd'.
    destruct (covers_next _ _ _ _ _ _ _ Hcov Hd Hd') as [Hs Hsz].
    destruct (covers_lookup _ _ _ _ _ _ Hcov Hd) as (_ & Hp & _).
    split; [done|]. split; [lia|done]. }
  split.
  { intros i d Hd. by destruct (covers_lookup _ _ _ _ _ _ Hcov Hd)
      as (_ & Hp & _). }
  split; [|done].
  intros i d Hd Hi.
  destruct (covers_lookup _ _ _ _ _ _ Hcov Hd) as (_ & _ & Hl & Hrest & _).
  rewrite Hi, drop_all in Hrest. simpl in Hrest. lia.
Qed.

(** ** Runs of one search *)

Lemma settle_idle (st : State) j r : calls st = [] → step st (Settle j r) = st.
Proof. intros H. unfold step. rewrite H. by destruct j. Qed.

Lemma settle_idle_run (st : State) (rs : list Settled) :
  calls st = [] → run st (Settle 0 <$> rs) = st.
Proof.
  intros H. induction rs as [|r rs IH]; [done|].
  cbn [fmap list_fmap run fold_left]. by rewrite settle_idle.
Qed.

Lemma tracked_do (st0 : State) (w : Work) first last :
  idle st0 →
  tracked (length (heap st0)) w (verify_fps w first last false) st0
    (step st0 (Message (Do w first last))).
Proof.
  intros [_ Hc]. destruct (do_spec st0 w first last Hc)
    as (_ & [(n & d & Hr & _)|(Hf & _)]).
  - left. eauto.
  - right. eauto 10.
Qed.

Lemma tracked_calls k w fps (st0 st : State) :
  tracked k w fps st0 st →
  (length (calls st) <= 1)%nat ∧
  (queue st ≠ None → ∃ d, d ∈ fps ∧ calls st = [(k, d)]).
Proof.
  intros [(n & d & Hl & Hq & Hh & Hc & _)|
          (n & m & mm & cs & _ & Hq & _ & Hc & Hcs & _)].
  - rewrite Hc. split; [simpl; lia|]. intros _. exists d.
    split; [|done]. by eapply list_elem_of_lookup_2.
  - split; [|congruence]. rewrite Hc.
    destruct Hcs as [->|(d & _ & ->)]; simpl; lia.
Qed.

(** Answers that are no match drive the search through its chunks in
    order until the list is exhausted. *)
Lemma no_match_run k w fps (st0 : State) (rs : list Settled) :
  Forall no_match rs →
  ∀ st : State,
    (∃ n d, running k w fps st0 n d st ∧
            (length fps <= n + length rs)%nat) ∨
    finished k w fps st0 (length fps) None None [] st →
    finished k w fps st0 (length fps) None None []
      (run st (Settle 0 <$> rs)).
Proof.
  induction 1 as [|r rs Hr Hrs IH]; intros st [(n & d & Hrun & Hlen)|Hf].
  - destruct Hrun as (Hl & _). apply lookup_lt_Some in Hl.
    simpl in Hlen. lia.
  - done.
  - cbn [fmap list_fmap run fold_left]. apply IH.
    destruct (settle_no_match k w fps st0 n d st r Hrun Hr)
      as (_ & [(n' & d' & Hlt & Hrun' & _)|(Hf & _)]).
    + left. exists n', d'. split; [done|]. simpl in Hlen. lia.
    + by right.
  - rewrite settle_idle_run; [done|]. by destruct Hf as (_ & _ & _ & ? & _).
Qed.

(** Whatever the engine answers, the search ends once every outstanding
    call has settled. *)
Lemma settle_run_finishes k w fps (st0 : State) (rs : list Settled) :
  ∀ st : State,
    (∃ n d, running k w fps st0 n d st ∧
            (length fps <= n + length rs)%nat) ∨
    (∃ n m mm, finished k w fps st0 n m mm [] st) →
    ∃ n m mm, finished k w fps st0 n m mm [] (run st (Settle 0 <$> rs)).
Proof.
  induction rs as [|r rs IH]; intros st [(n & d & Hrun & Hlen)|Hf].
  - destruct Hrun as (Hl & _). apply lookup_lt_Some in Hl.
    simpl in Hlen. lia.
  - done.
  - cbn [fmap list_fmap run fold_left]. apply IH.
    assert (no_match r ∨ ∃ idx, r = Resolved idx ∧ 0 <= idx) as [Hr|Hr].
    { destruct r as [idx|]; [|by left].
      destruct (Z.le_gt_cases 0 idx); [right; eauto|by left]. }
    + destruct (settle_no_match k w fps st0 n d st r Hrun Hr)
        as (_ & [(n' & d' & Hlt & Hrun' & _)|(Hf & _)]).
      * left. exists n', d'. split; [done|]. simpl in Hlen. lia.
      * right. eauto.
    + destruct Hr as (idx & -> & Hidx).
      destruct (settle_match k w fps st0 n d st idx Hrun Hidx) as (Hf & _).
      right. eauto.
  - destruct Hf as (n & m & mm & Hf).
    rewrite settle_idle_run; [eauto|]. by destruct Hf as (_ & _ & _ & ? & _).
Qed.

Lemma settles_not_do (rs : list Settled) :
  Forall (fun ev : Event => is_do ev = false) (Settle 0 <$> rs).
Proof. induction rs; constructor; done. Qed.


(** A search without a match: started at an idle worker and answered
    with no match often enough, it ends having submitted every chunk. *)
Lemma quiet_search (st0 : State) (w : Work) first last rs :
  idle st0 → Forall no_match rs →
  let fps := verify_fps w first last false in
  (length fps <= length rs)%nat →
  finished (length (heap st0)) w fps st0 (length fps) None None []
    (run (step st0 (Message (Do w first last))) (Settle 0 <$> rs)).
Proof.
  intros [_ Hc] Hrs fps Hlen. apply no_match_run; [done|].
  destruct (do_spec st0 w first last Hc)
    as (_ & [(n & d & Hr & _)|(Hf & _)]).
  - left. exists n, d. split; [done|]. fold fps. lia.
  - by right.
Qed.

(** ** A search among calls left over from earlier ones *)

Lemma total_app (l1 l2 : list Chunk) : total (l1 ++ l2) = total l1 + total l2.
Proof. induction l1 as [|d l1 IH]; simpl; lia. Qed.

(** [queue.next()] on the queue of activation [k], whatever else is
    outstanding: the first pending chunk on which [identify] does not
    throw goes to the engine, the chunks before it having been counted
    and skipped; or all of them throw and the listener runs. *)
Lemma queue_next_from k w (pending : list Chunk) :
  ∀ (st : State) c,
    queue st = Some k → heap st !! k = Some c → listening c = true →
    let st' := queue_next k w pending st in
    stop st' = stop st ∧
    ((∃ n d,
        pending !! n = Some d ∧ thrown w pending 0 n ∧
        identify_throws (feature w) (fmds d) = false ∧
        queue st' = Some k ∧ sent st' = sent st ∧
        done_counts st' = done_counts st ∧
        submitted st' = submitted st ++ take (S n) pending ∧
        calls st' = calls st ++ [(k, d)] ∧
        heap st' !! k =
          Some {| work := work c;
                  count := count c + total (take (S n) pending);
                  matched := matched c; queues := drop (S n) pending;
                  listening := true |}) ∨
     (thrown w pending 0 (length pending) ∧ queue st' = None ∧
      sent st' = sent st ++
        [{| Msg.cmd := "done"; Msg.work := work c;
            Msg.matched := matched c; Msg.worker := worker_id |}] ∧
      done_counts st' = done_counts st ++ [count c + total pending] ∧
      submitted st' = submitted st ++ pending ∧ calls st' = calls st)).
Proof.
  induction pending as [|d rest IH]; intros st c Hq Hh Hl; cbn zeta.
  - cbn [queue_next]. rewrite (emit_done_listening _ _ _ Hh Hl).
    split; [done|]. right. split; [intros j dj Hj; simpl in Hj; lia|].
    fields. split; [done|]. split; [done|]. split.
    { unfold done_counts. fields. rewrite omap_app. cbn.
      by rewrite Z.add_0_r. }
    split; [by rewrite app_nil_r|done].
  - cbn [queue_next]. set (st1 := submit d _).
    set (c1 := {| work := work c; count := count c + size d;
                  matched := matched c; queues := rest;
                  listening := listening c |}).
    assert (heap st1 !! k = Some c1) as Hh1.
    { subst st1. cbn [submit heap]. by rewrite !lookup_update, Hh. }
    assert (queue st1 = Some k ∧ calls st1 = calls st ∧ sent st1 = sent st ∧
            submitted st1 = submitted st ++ [d] ∧ stop st1 = stop st ∧
            done_counts st1 = done_counts st)
      as (Hq1 & Hc1 & Hse1 & Hs1 & Hst1 & Hd1) by done.
    clearbody st1.
    destruct (identify_throws (feature w) (fmds d)) eqn:Hthrow.
    + destruct (IH (log LogErr st1) c1) as [Hstop Hcases]; try done.
      cbn zeta in Hstop, Hcases. split; [by rewrite Hstop|].
      rewrite done_counts_log, app_nil_r in Hcases. fields.
      assert (∀ n, thrown w rest 0 n → thrown w (d :: rest) 0 (S n))
        as Hshift.
      { intros n Hth j dj Hj Hdj. destruct j as [|j].
        - by injection Hdj as <-.
        - eapply (Hth j); [lia|done]. }
      destruct Hcases as [(n & d' & Hn & Hth & Hno & E1 & E2 & E3 & E4 &
                           E5 & E6)|(Hth & E1 & E2 & E3 & E4 & E5)].
      * left. exists (S n), d'. split; [done|]. split; [by apply Hshift|].
        split; [done|]. split; [done|]. split; [congruence|].
        split; [congruence|]. split.
        { rewrite E4, Hs1, <- app_assoc. done. }
        split; [congruence|]. rewrite E6. subst c1. cbn [work count matched].
        do 2 f_equal. cbn [take total foldr]. symmetry. apply Z.add_assoc.
      * right. split; [by apply Hshift|]. split; [done|].
        split; [by rewrite E2, Hse1|]. split.
        { rewrite E3, Hd1. subst c1. cbn [count total foldr].
          do 2 f_equal. symmetry. apply Z.add_assoc. }
        split; [|congruence]. rewrite E4, Hs1, <- app_assoc. done.
    + split; [done|]. left. exists 0%nat, d. split; [done|].
      split; [intros j dj Hj; lia|]. split; [done|]. fields.
      split; [done|]. split; [done|]. split; [done|].
      split; [by rewrite Hs1|]. split; [by rewrite Hc1|].
      rewrite Hh1. subst c1. rewrite Hl. cbn [take total foldr drop].
      do 2 f_equal. by rewrite Z.add_0_r.
Qed.

(** [queue.next()] for a live search. *)
Lemma next_live k w st0 sub (s : State) :
  live k w st0 sub s →
  let s' := next s in
  stop s' = stop s ∧
  ((∃ sub' d, live k w st0 (sub ++ sub') s' ∧
              calls s' = calls s ++ [(k, d)]) ∨
   (∃ sub', ended w st0 None (sub ++ sub') s' ∧ calls s' = calls s)).
Proof.
  intros (Hq & Hse & Hd & Hs & qs & Hh) s'. subst s'.
  unfold next. rewrite Hq, Hh. cbn [work queues].
  destruct (queue_next_from k w qs s _ Hq Hh eq_refl) as [Hstop Hcases].
  cbn zeta in Hstop, Hcases. cbn [work count matched] in Hcases.
  split; [done|].
  destruct Hcases as [(n & d & Hn & Hth & Hno & E1 & E2 & E3 & E4 & E5 & E6)|
                      (Hth & E1 & E2 & E3 & E4 & E5)].
  - left. exists (take (S n) qs), d. split; [|done].
    unfold live. split; [done|]. split; [congruence|].
    split; [congruence|]. split; [by rewrite E4, Hs, app_assoc|].
    rewrite E6, total_app. eauto.
  - right. exists qs. split; [|done]. unfold ended. split; [done|].
    split; [by rewrite E2, Hse|]. split; [by rewrite E4, Hs, app_assoc|].
    by rewrite E3, Hd, total_app.
Qed.

(** A [do], in whatever state it arrives, starts a live search with the
    first chunk on which [identify] does not throw with the engine, or a
    search that has ended already. *)
Lemma do_live (st0 : State) (w : Work) first last :
  let fps := verify_fps w first last false in
  let k := length (heap st0) in
  let st1 := step st0 (Message (Do w first last)) in
  stop st1 = false ∧
  ((∃ n d,
      fps !! n = Some d ∧ thrown w fps 0 n ∧
      identify_throws (feature w) (fmds d) = false ∧
      live k w st0 (take (S n) fps) st1 ∧
      calls st1 = calls st0 ++ [(k, d)]) ∨
   (thrown w fps 0 (length fps) ∧ ended w st0 None fps st1 ∧
    calls st1 = calls st0)).
Proof.
  intros fps k st1. subst st1. unfold step, on_message, verify.
  cbn zeta. fields. fold fps. fold k. unfold next. fields.
  rewrite lookup_app_r by done. rewrite Nat.sub_diag.
  cbn [lookup list_lookup work queues].
  match goal with |- context [queue_next _ _ _ ?s] => set (s1 := s) end.
  set (c := {| work := w; count := 0; matched := None; queues := fps;
               listening := true |}).
  assert (heap s1 !! k = Some c) as Hh.
  { subst s1. fields. rewrite lookup_app_r by done.
    by rewrite Nat.sub_diag. }
  assert (queue s1 = Some k ∧ sent s1 = sent st0 ∧ calls s1 = calls st0 ∧
          submitted s1 = submitted st0 ∧ stop s1 = false)
    as (Hq & Hse & Hc & Hs & Hst) by done.
  assert (done_counts s1 = done_counts st0) as Hd.
  { subst s1. unfold done_counts. fields. rewrite omap_app. cbn.
    by rewrite app_nil_r. }
  clearbody s1.
  destruct (queue_next_from k w fps s1 c Hq Hh eq_refl) as [Hstop Hcases].
  cbn zeta in Hstop, Hcases. cbn [work count matched c] in Hcases.
  split; [congruence|].
  destruct Hcases as [(n & d & Hn & Hth & Hno & E1 & E2 & E3 & E4 & E5 & E6)|
                      (Hth & E1 & E2 & E3 & E4 & E5)].
  - left. exists n, d. split; [done|]. split; [done|]. split; [done|].
    split; [|congruence]. unfold live. split; [done|].
    split; [congruence|]. split; [congruence|]. split; [congruence|].
    rewrite E6. rewrite Z.add_0_l. eauto.
  - right. split; [done|]. split; [|congruence]. unfold ended.
    split; [done|]. split; [congruence|]. split; [congruence|].
    rewrite E3, Hd. by rewrite Z.add_0_l.
Qed.

(** One turn for a live search: it stays live, with nothing found, or
    its message goes out with the verdict of the event. *)
Lemma live_step k w st0 sub (st : State) ev :
  live k w st0 sub st → is_do ev = false →
  let st' := step st ev in
  ((∃ sub', live k w st0 (sub ++ sub') st') ∧
   verdict k st ev = None ∧ ev ≠ Message Stop) ∨
  (∃ sub',
     ended w st0 (verdict k st ev) (sub ++ sub') st' ∧
     (ev = Message Stop → sub' = [] ∧ stop st' = true) ∧
     (verdict k st ev ≠ None → sub' = [])).
Proof.
  intros Hlive Hev st'. subst st'.
  pose proof Hlive as (Hq & Hse & Hd & Hs & qs & Hh).
  destruct ev as [[w' f l| |]|n r]; [done| | |].
  - (* stop *)
    right. exists [].
    unfold step, on_message. cbn zeta. fields. rewrite Hq.
    erewrite emit_done_listening; cycle 1.
    { fields. rewrite list_lookup_alter_eq, Hh. reflexivity. }
    { done. }
    split; [|split; [intros _; by split|done]].
    unfold ended, verdict, done_msg. fields. cbn [work matched count].
    rewrite app_nil_r. split; [done|]. split; [by rewrite Hse|].
    split; [done|]. unfold done_counts in *. fields.
    rewrite !omap_app, Hd. cbn. by rewrite <- app_assoc.
  - (* other commands *)
    left. split; [|done]. exists []. by rewrite app_nil_r.
  - (* an engine call settles *)
    unfold step, verdict.
    destruct (calls st !! n) as [[k' d']|] eqn:Hcall; cycle 1.
    { left. split; [|by destruct r]. exists []. by rewrite app_nil_r. }
    set (st1 := set_calls (delete n (calls st)) st).
    assert (live k w st0 sub st1) as Hlive1 by done.
    clearbody st1.
    assert (live k w st0 sub (log LogErr st1)) as Hlog.
    { destruct Hlive1 as (E1 & E2 & E3 & E4 & E5). unfold live.
      rewrite done_counts_log, app_nil_r. done. }
    destruct r as [idx|].
    + unfold on_resolved. destruct (Z.leb_spec 0 idx) as [Hidx|Hidx].
      * right. exists []. rewrite app_nil_r. split; [|done].
        cbn zeta. fields. destruct Hlive1 as (Hq1 & Hse1 & Hd1 & Hs1 & qs1 & Hh1).
        rewrite Hq1.
        set (m := if decide (k' = k ∧ 0 <= idx)
                  then Some (start d' + idx) else None).
        erewrite emit_done_listening with
          (c := {| work := w; count := total sub; matched := m;
                   queues := qs1; listening := true |}); cycle 1.
        { fields. subst m. destruct (decide (k' = k)) as [->|Hne].
          - rewrite list_lookup_alter_eq, Hh1. cbn.
            by rewrite decide_True by done.
          - rewrite list_lookup_alter_ne, Hh1 by done.
            rewrite decide_False by tauto. done. }
        { done. }
        unfold ended, done_msg. fields. cbn [work matched count].
        split; [done|]. split; [by rewrite Hse1|]. split; [done|].
        unfold done_counts in *. fields. rewrite !omap_app, Hd1. cbn.
        by rewrite <- app_assoc.
      * rewrite decide_False by lia.
        destruct (next_live k w st0 sub st1 Hlive1)
          as (_ & [(sub' & d & Hl' & _)|(sub' & He' & _)]).
        -- left. split; [eauto|done].
        -- right. exists sub'. split; [done|]. split; [done|]. done.
    + unfold errNext.
      destruct (next_live k w st0 sub (log LogErr st1) Hlog)
        as (_ & [(sub' & d & Hl' & _)|(sub' & He' & _)]).
      * left. split; [eauto|done].
      * right. exists sub'. split; [done|]. split; [done|]. done.
Qed.

(** After its message has been sent nothing reaches the engine or the
    coordinator until the next [do]. *)
Lemma ended_step w st0 m sub (st : State) ev :
  ended w st0 m sub st → is_do ev = false →
  ended w st0 m sub (step st ev).
Proof.
  intros (Hq & Hse & Hs & Hd) Hev.
  destruct ev as [[w' f l| |]|n r]; [done| | |].
  - unfold step, on_message. cbn zeta. fields. rewrite Hq. done.
  - done.
  - unfold step. destruct (calls st !! n) as [[k' d']|]; [|done].
    set (st1 := set_calls (delete n (calls st)) st).
    assert (ended w st0 m sub st1) as (Hq1 & Hse1 & Hs1 & Hd1) by done.
    clearbody st1.
    assert (∀ s : State,
              queue s = None → sent s = sent st1 →
              submitted s = submitted st1 →
              done_counts s = done_counts st1 →
              ended w st0 m sub (next s)) as Hnext.
    { intros s E1 E2 E3 E4. rewrite next_idle by done.
      unfold ended. split; [done|]. split; [congruence|].
      split; congruence. }
    destruct r as [idx|].
    + unfold on_resolved. destruct (Z.leb_spec 0 idx) as [Hidx|Hidx].
      * cbn zeta. fields. rewrite Hq1. unfold errNext.
        apply Hnext; try done.
        unfold done_counts in *. fields. rewrite !omap_app. cbn.
        by rewrite !app_nil_r.
      * by apply Hnext.
    + unfold errNext. apply Hnext; try done.
      unfold done_counts in *. fields. rewrite !omap_app. cbn.
      by rewrite !app_nil_r.
Qed.

Lemma found_nil k (st : State) i : ¬ found k st [] i.
Proof. intros (evs1 & j & d & o & evs2 & E & _). by destruct evs1. Qed.

Lemma found_cons k (st : State) ev evs i :
  found k st (ev :: evs) i ↔
  (queue st = Some k ∧ verdict k st ev = Some i) ∨
  found k (step st ev) evs i.
Proof.
  split.
  - intros (evs1 & j & d & o & evs2 & E & Hq & Hc & Ho & ->).
    destruct evs1 as [|e evs1]; simplify_eq/=.
    + left. split; [done|]. rewrite Hc. by rewrite decide_True by done.
    + right. by exists evs1, j, d, o, evs2.
  - intros [[Hq Hv]|(evs1 & j & d & o & evs2 & -> & Hq & Hc & Ho & ->)].
    + destruct ev as [|j [o|]]; try done. simpl in Hv.
      destruct (calls st !! j) as [[k' d]|] eqn:Hc; [|done].
      case_decide as Hk; [|done]. destruct Hk as [-> Ho].
      injection Hv as <-. by exists [], j, d, o, evs.
    + by exists (ev :: evs1), j, d, o, evs2.
Qed.

Lemma ended_run k w st0 m sub evs :
  ∀ st : State,
    ended w st0 m sub st → Forall (fun ev => is_do ev = false) evs →
    ended w st0 m sub (run st evs) ∧ ∀ i, ¬ found k st evs i.
Proof.
  induction evs as [|ev evs IH]; intros st He Hevs.
  - split; [done|]. intros i. apply found_nil.
  - inversion Hevs as [|? ? Hev Hrest]; subst.
    destruct (IH _ (ended_step _ _ _ _ _ _ He Hev) Hrest) as [Hfin Hno].
    split; [done|]. intros i [[Hq _]|Hf]%found_cons.
    + destruct He as (Hq' & _). congruence.
    + by apply (Hno i).
Qed.

(** Over a run without another [do]: the search is still live and has
    found nothing, or its one message has been sent, and it carries an
    index exactly if the search found that index. *)
Lemma live_run k w st0 evs :
  ∀ sub (st : State),
    live k w st0 sub st → Forall (fun ev => is_do ev = false) evs →
    ((∃ sub', live k w st0 (sub ++ sub') (run st evs)) ∧
     ∀ i, ¬ found k st evs i) ∨
    (∃ m sub',
       ended w st0 m (sub ++ sub') (run st evs) ∧
       ∀ i, m = Some i ↔ found k st evs i).
Proof.
  induction evs as [|ev evs IH]; intros sub st Hl Hevs.
  - left. split; [exists []; by rewrite app_nil_r|].
    intros i. apply found_nil.
  - inversion Hevs as [|? ? Hev Hrest]; subst.
    pose proof Hl as (Hq & _).
    change (run st (ev :: evs)) with (run (step st ev) evs).
    destruct (live_step k w st0 sub st ev Hl Hev)
      as [([sub' Hl'] & Hv & _)|(sub' & He & _)].
    + destruct (IH _ _ Hl' Hrest) as [([sub'' Hl''] & Hno)|
                                      (m & sub'' & He & Hm)].
      * left. split; [exists (sub' ++ sub''); by rewrite app_assoc|].
        intros i [[_ Hv']|Hf]%found_cons; [congruence|by apply (Hno i)].
      * right. exists m, (sub' ++ sub''). rewrite app_assoc.
        split; [done|]. intros i. rewrite found_cons, Hm. split; [auto|].
        intros [[_ Hv']|Hf]; [congruence|done].
    + destruct (ended_run k _ _ _ _ evs _ He Hrest) as [Hfin Hno].
      right. exists (verdict k st ev), sub'. split; [done|].
      intros i. rewrite found_cons. split; [auto|].
      intros [[_ Hv']|Hf]; [done|by destruct (Hno i)].
Qed.

(** While no engine call settles, a live search stays exactly as it is
    until [stop] ends it. *)
Lemma unsettled_run k w st0 sub evs :
  ∀ st : State,
    live k w st0 sub st → Forall (fun ev => is_plain ev = true) evs →
    queue (run st evs) ≠ None → run st evs = st.
Proof.
  induction evs as [|ev evs IH]; intros st Hl Hevs Hq; [done|].
  inversion Hevs as [|? ? Hev Hrest]; subst.
  change (run st (ev :: evs)) with (run (step st ev) evs) in *.
  destruct ev as [[w' f l| |]|n r]; try done.
  - destruct (live_step k w st0 sub st (Message Stop) Hl eq_refl)
      as [(_ & _ & Hne)|(sub' & He & _)]; [done|].
    destruct (ended_run k _ _ _ _ evs _ He) as [(Hq' & _) _]; [|done].
    eapply Forall_impl; [exact Hrest|]. by intros [[]|].
  - by apply IH.
Qed.

(** The search started by a [do], in whatever state the command
    arrives and whatever follows short of another [do]. *)
Lemma search_outcome (st0 : State) (w : Work) first last evs :
  Forall (fun ev => is_do ev = false) evs →
  let k := length (heap st0) in
  let st1 := step st0 (Message (Do w first last)) in
  ((∃ sub, live k w st0 sub (run st1 evs)) ∧
   ∀ i, ¬ found k st1 evs i) ∨
  (∃ m sub,
     ended w st0 m sub (run st1 evs) ∧
     ∀ i, m = Some i ↔ found k st1 evs i).
Proof.
  intros Hevs k st1.
  destruct (do_live st0 w first last)
    as (_ & [(n & d & _ & _ & _ & Hl & _)|(_ & He & _)]).
  - fold k st1 in Hl.
    destruct (live_run k w st0 evs _ _ Hl Hevs)
      as [([sub' Hl'] & Hno)|(m & sub' & He & Hm)]; eauto 10.
  - fold st1 in He.
    destruct (ended_run k _ _ _ _ evs _ He Hevs) as [Hfin Hno].
    right. exists None, (verify_fps w first last false).
    split; [done|]. intros i. split; [done|]. intros Hf.
    by destruct (Hno i).
Qed.

(** ** Properties of one search *)



(** C4, as the code has it: in whatever state the [do] arrived, [stop]
    arriving while the search is live records the cancellation
    ([stop = true]), ends the search in that very turn with one [done]
    message carrying [matched: null], and reports as verified the
    samples of all chunks handed to the engine for the search so far,
    settled or not; nothing is handed to the engine or sent afterwards,
    until another [do].  If no engine call has settled between the [do]
    and the [stop], the chunks handed over are the chunk [d] with the
    engine and, before it, the chunks on which [identify] threw: the
    count is the size of [d], which is never 0, plus the sizes of those
    chunks.  When no call of an earlier search was outstanding as the
    [do] arrived, [d] is the only call outstanding. *)
Theorem stop_cancels (st0 : State) (w : Work) first last
    (evs : list Event) :
  Forall (fun ev => is_do ev = false) evs →
  let fps := verify_fps w first last false in
  let k := length (heap st0) in
  let st := run (step st0 (Message (Do w first last))) evs in
  queue st ≠ None →
  let st' := step st (Message Stop) in
  stop st' = true ∧ queue st' = None ∧
  sent st = sent st0 ∧
  sent st' = sent st0 ++
    [{| Msg.cmd := "done"; Msg.work := w; Msg.matched := None;
        Msg.worker := worker_id |}] ∧
  submitted st' = submitted st ∧
  (∃ sub, submitted st = submitted st0 ++ sub ∧
          done_counts st' = done_counts st0 ++ [total sub]) ∧
  (Forall (fun ev => is_plain ev = true) evs →
   ∃ n d,
     fps !! n = Some d ∧ thrown w fps 0 n ∧
     identify_throws (feature w) (fmds d) = false ∧
     calls st = calls st0 ++ [(k, d)] ∧
     submitted st = submitted st0 ++ take n fps ++ [d] ∧
     done_counts st' = done_counts st0 ++ [total (take n fps) + size d] ∧
     0 < size d) ∧
  (idle st0 → ∃ d, d ∈ fps ∧ calls st = [(k, d)]) ∧
  ∀ evs', Forall (fun ev => is_do ev = false) evs' →
    sent (run st' evs') = sent st' ∧
    submitted (run st' evs') = submitted st.
Proof.
  intros Hevs fps k st Hq st'.
  destruct (search_outcome st0 w first last evs Hevs)
    as [([sub Hl] & _)|(m & sub & (Hq' & _) & _)]; [|done].
  fold k st in Hl.
  destruct (live_step k w st0 sub st (Message Stop) Hl eq_refl)
    as [(_ & _ & Hne)|(sub' & He & Hstop & _)]; [done|].
  fold st' in He, Hstop. destruct (Hstop eq_refl) as [-> Hflag].
  rewrite app_nil_r in He. cbn [verdict] in He.
  pose proof Hl as (_ & Hse & _ & Hs & _).
  pose proof He as (Hq' & Hse' & Hs' & Hd').
  split; [done|]. split; [done|]. split; [done|]. split; [done|].
  split; [congruence|]. split; [eauto|]. split; [|split].
  - intros Hplain.
    destruct (do_live st0 w first last)
      as (_ & [(n & d & Hn & Hth & Hno & Hl1 & Hc1)|(_ & He1 & _)]);
      cycle 1.
    { destruct (ended_run k _ _ _ _ evs _ He1 Hevs) as [(Hq1 & _) _].
      done. }
    fold fps k in Hn, Hth, Hl1, Hc1.
    pose proof (unsettled_run k w st0 _ evs _ Hl1 Hplain Hq) as E.
    fold st in E. rewrite <- E in Hl1, Hc1.
    destruct Hl1 as (_ & _ & _ & Hs1 & _).
    assert (sub = take (S n) fps) as ->
      by (apply (app_inv_head (submitted st0)); congruence).
    rewrite (take_S_lookup _ _ _ Hn) in Hs1, Hd'.
    rewrite total_snoc in Hd'.
    exists n, d. split; [done|]. split; [done|]. split; [done|].
    split; [done|]. split; [done|]. split; [done|].
    destruct (verify_fps_covers w first last) as [Hcov _].
    fold fps in Hcov.
    destruct (covers_lookup _ _ _ _ _ _ Hcov Hn) as (_ & Hsz & _). lia.
  - intros Hidle.
    pose proof (tracked_run _ _ _ _ evs _
                  (tracked_do st0 w first last Hidle) Hevs) as Ht.
    fold fps st in Ht.
    destruct (tracked_calls _ _ _ _ _ Ht) as [_ Hone]. by apply Hone.
  - intros evs' Hevs'.
    destruct (ended_run k _ _ _ _ evs' _ He Hevs')
      as [(_ & Hse'' & Hs'' & _) _].
    split; congruence.
Qed.

(** *** One message per [do], with stale engine calls around *)

Lemma emit_done_answers k c w (st : State) :
  heap st !! k = Some c → listening c = true → work c = w →
  answered w (sent st) (emit_done k st) ∧
  calls (emit_done k st) = calls st.
Proof.
  intros Hh Hl Hw. rewrite (emit_done_listening _ _ _ Hh Hl).
  unfold answered, done_msg. fields. rewrite Hw. eauto.
Qed.

Lemma queue_next_waits k w pending :
  ∀ (st : State) c,
    queue st = Some k → heap st !! k = Some c → listening c = true →
    work c = w →
    let st' := queue_next k w pending st in
    (waiting k w (sent st) st' ∧
     length (calls st') = S (length (calls st)) ∧
     ∃ c', heap st' !! k = Some c' ∧
           (S (length (queues c')) <= length pending)%nat) ∨
    (answered w (sent st) st' ∧ calls st' = calls st).
Proof.
  induction pending as [|d rest IH]; intros st c Hq Hh Hl Hw; cbn zeta.
  - right. cbn [queue_next]. by eapply emit_done_answers.
  - cbn [queue_next]. set (st1 := submit d _).
    set (c1 := {| work := work c;
                  count := count c + Z.of_nat (length (fmds d));
                  matched := matched c; queues := rest;
                  listening := listening c |}).
    assert (heap st1 !! k = Some c1) as Hh1.
    { subst st1. cbn [submit heap]. by rewrite !lookup_update, Hh. }
    assert (queue st1 = Some k ∧ calls st1 = calls st ∧ sent st1 = sent st)
      as (Hq1 & Hc1 & Hse1) by done.
    clearbody st1.
    destruct (identify_throws (feature w) (fmds d)).
    + destruct (IH (log LogErr st1) c1) as [(Hw' & Hlen & c' & Hc' & Hle)|
                                            (Ha & Hcalls)]; try done.
      * left. fields. rewrite Hse1 in Hw'. split; [done|].
        split; [by rewrite Hlen, Hc1|]. exists c'. split; [done|].
        simpl. lia.
      * right. fields. rewrite Hse1 in Ha. split; [done|]. congruence.
    + left. split; [|split].
      * unfold waiting. fields. split; [done|]. split; [done|].
        split; [by destruct (calls st1)|]. exists c1. by split.
      * fields. rewrite length_app, Hc1. simpl. lia.
      * exists c1. split; [done|]. simpl. lia.
Qed.

Lemma next_waits k w (st : State) c :
  queue st = Some k → heap st !! k = Some c → listening c = true →
  work c = w →
  (waiting k w (sent st) (next st) ∧
   (backlog k (next st) <= backlog k st)%nat) ∨
  (answered w (sent st) (next st) ∧ calls (next st) = calls st).
Proof.
  intros Hq Hh Hl Hw. unfold next. rewrite Hq, Hh.
  destruct (queue_next_waits k (work c) (queues c) st c Hq Hh Hl eq_refl)
    as [(Hw' & Hlen & c' & Hc' & Hle)|(Ha & Hcalls)].
  - left. rewrite Hw in *. split; [done|].
    unfold backlog. destruct Hw' as (-> & _). rewrite Hq, Hc', Hh, Hlen. lia.
  - right. rewrite Hw in *. done.
Qed.

Lemma length_delete_lookup {A} (l : list A) n x :
  l !! n = Some x → S (length (delete n l)) = length l.
Proof.
  revert n. induction l as [|y l IH]; intros [|n]; simpl; try done.
  intros H. by rewrite (IH n H).
Qed.

(** No event other than [do] sends a second message or takes the one
    message back, and no event adds to the backlog; the settling of the
    oldest outstanding call reduces it. *)
Lemma one_message_step k w sent0 (st : State) ev :
  waiting k w sent0 st ∨ answered w sent0 st → is_do ev = false →
  let st' := step st ev in
  (waiting k w sent0 st' ∨ answered w sent0 st') ∧
  (backlog k st' <= backlog k st)%nat ∧
  (∀ r, ev = Settle 0 r → calls st ≠ [] →
        (backlog k st' < backlog k st)%nat).
Proof.
  intros Hst Hev st'. subst st'.
  destruct ev as [[w' f l| |]|n r]; [done| | |].
  - (* stop *)
    split; [|split; [|done]]; unfold step, on_message; cbn zeta; fields.
    + destruct Hst as [(Hq & Hse & Hne & c & Hh & Hl & Hw)|(Hq & m & Hse)].
      * rewrite Hq. right.
        destruct (emit_done_answers k (set_queues [] c) w
                    (update k (set_queues []) (log LogStopping
                                                 (set_stop true st))))
          as [Ha _]; try done.
        { by rewrite lookup_update; fields; rewrite Hh. }
        fields. by rewrite Hse in Ha.
      * rewrite Hq. right. unfold answered. fields. eauto.
    + destruct Hst as [(Hq & Hse & Hne & c & Hh & Hl & Hw)|(Hq & m & Hse)].
      * rewrite Hq.
        destruct (emit_done_answers k (set_queues [] c) w
                    (update k (set_queues []) (log LogStopping
                                                 (set_stop true st))))
          as [(Hq' & _) Hc]; try done.
        { by rewrite lookup_update; fields; rewrite Hh. }
        unfold backlog at 1. rewrite Hq', Hc. fields.
        unfold backlog. rewrite Hq. lia.
      * rewrite Hq. unfold backlog. fields. by rewrite Hq.
  - (* other commands *)
    split; [done|]. split; [done|]. done.
  - (* an engine call settles *)
    unfold step. destruct (calls st !! n) as [[k' d']|] eqn:Hcall; cycle 1.
    { split; [done|]. split; [done|]. intros r' [= -> ->] Hne.
      by destruct (calls st). }
    pose proof (length_delete_lookup _ _ _ Hcall) as Hlen.
    set (st1 := set_calls (delete n (calls st)) st).
    assert (queue st1 = queue st ∧ sent st1 = sent st ∧ heap st1 = heap st ∧
            S (length (calls st1)) = length (calls st))
      as (E1 & E2 & E3 & E4) by done.
    clearbody st1.
    assert (backlog k st1 < backlog k st)%nat as Hless.
    { unfold backlog. rewrite E1, E3. destruct (queue st); lia. }
    assert (∀ s : State,
              queue s = queue st1 → sent s = sent st1 →
              calls s = calls st1 →
              (∀ c, heap st1 !! k = Some c →
                    ∃ c', heap s !! k = Some c' ∧
                          listening c' = listening c ∧ work c' = work c ∧
                          queues c' = queues c) →
              (waiting k w sent0 (next s) ∨ answered w sent0 (next s)) ∧
              (backlog k (next s) <= backlog k st1)%nat) as Hnext.
    { intros s Hqs Hses Hcs Hheap. rewrite E3 in Hheap.
      destruct Hst as [(Hq & Hse & Hne & c & Hh & Hl & Hw)|(Hq & m & Hse)].
      - destruct (Hheap c Hh) as (c' & Hh' & Hl' & Hw' & Hqs').
        destruct (next_waits k w s c') as [(Hwait & Hb)|(Ha & Hc)];
          try congruence.
        + split; [left; congruence|]. etrans; [exact Hb|].
          unfold backlog.
          rewrite Hqs, E1, Hq, Hh', E3, Hh, Hqs', Hcs. done.
        + split; [right; congruence|]. unfold backlog.
          destruct Ha as (-> & _). rewrite Hc, Hcs, E1, Hq. lia.
      - rewrite next_idle by congruence. split.
        + right. split; [congruence|]. exists m. congruence.
        + unfold backlog. rewrite Hqs, Hcs, E1, Hq. done. }
    assert (∀ s : State,
              queue s = queue st1 → sent s = sent st1 →
              calls s = calls st1 →
              (∀ c, heap st1 !! k = Some c →
                    ∃ c', heap s !! k = Some c' ∧
                          listening c' = listening c ∧ work c' = work c ∧
                          queues c' = queues c) →
              ∀ q, queue s = Some q →
                   answered w sent0 (emit_done q s) ∧
                   (backlog k (emit_done q s) <= backlog k st1)%nat) as Hdone.
    { intros s Hqs Hses Hcs Hheap q Hq'. rewrite E3 in Hheap.
      destruct Hst as [(Hq & Hse & Hne & c & Hh & Hl & Hw)|(Hq & m & Hse)];
        [|congruence].
      assert (q = k) as -> by congruence.
      destruct (Hheap c Hh) as (c' & Hh' & Hl' & Hw' & Hqs').
      destruct (emit_done_answers k c' w s) as [Ha Hc]; try congruence.
      split; [by rewrite Hses, E2, Hse in Ha|].
      unfold backlog. destruct Ha as (-> & _). rewrite Hc, Hcs, E1, Hq.
      lia. }
    assert ((waiting k w sent0
               match r with
               | Resolved idx => on_resolved k' d' idx st1
               | Rejected => errNext st1
               end ∨
             answered w sent0
               match r with
               | Resolved idx => on_resolved k' d' idx st1
               | Rejected => errNext st1
               end) ∧
            (backlog k
               match r with
               | Resolved idx => on_resolved k' d' idx st1
               | Rejected => errNext st1
               end <= backlog k st1)%nat) as [Hinv Hb].
    { destruct r as [idx|].
      - unfold on_resolved. destruct (Z.leb_spec 0 idx) as [Hidx|Hidx].
        + cbn zeta.
          set (s := update k' _ _).
          assert (∀ c, heap st1 !! k = Some c →
                    ∃ c', heap s !! k = Some c' ∧
                          listening c' = listening c ∧ work c' = work c ∧
                          queues c' = queues c) as Hheap.
          { intros c Hc. subst s. unfold update. fields.
            destruct (decide (k' = k)) as [->|Hne].
            - rewrite list_lookup_alter_eq, Hc. eauto.
            - rewrite list_lookup_alter_ne by done. eauto. }
          assert (queue s = queue st1 ∧ sent s = sent st1 ∧
                  calls s = calls st1) as (F1 & F2 & F3) by done.
          clearbody s.
          destruct (queue s) as [q|] eqn:Hqs.
          * destruct (Hdone s) with (q := q) as [Ha Hb];
              try done; try congruence.
            split; [by right|done].
          * unfold errNext. apply Hnext; fields; try done; try congruence.

        + apply Hnext; eauto.
      - unfold errNext. apply Hnext; eauto. }
    split; [done|]. split; [lia|]. intros; lia.
Qed.

Lemma one_message_run k w sent0 evs :
  ∀ st : State,
    waiting k w sent0 st ∨ answered w sent0 st →
    Forall (fun ev => is_do ev = false) evs →
    (waiting k w sent0 (run st evs) ∨ answered w sent0 (run st evs)) ∧
    (backlog k (run st evs) <= backlog k st)%nat.
Proof.
  induction evs as [|ev evs IH]; intros st Hst Hevs; [done|].
  inversion Hevs as [|? ? Hev Hrest]; subst.
  destruct (one_message_step k w sent0 st ev Hst Hev) as (Hst' & Hb & _).
  destruct (IH _ Hst' Hrest) as [Hfin Hb']. cbn [run fold_left].
  split; [done|]. unfold run in Hb'. lia.
Qed.

Lemma waiting_backlog k w sent0 (st : State) :
  waiting k w sent0 st → (0 < backlog k st)%nat.
Proof.
  intros (Hq & _ & Hne & _). unfold backlog. rewrite Hq.
  destruct (calls st); [done|]. simpl. lia.
Qed.

(** Once the engine has settled the outstanding calls, the message has
    been sent. *)
Lemma settles_drain k w sent0 (rs : list Settled) :
  ∀ st : State,
    waiting k w sent0 st ∨ answered w sent0 st →
    (backlog k st <= length rs)%nat →
    answered w sent0 (run st (Settle 0 <$> rs)) ∧
    calls (run st (Settle 0 <$> rs)) = [].
Proof.
  induction rs as [|r rs IH]; intros st Hst Hb.
  - destruct Hst as [Hw|Ha].
    + apply waiting_backlog in Hw. simpl in Hb. lia.
    + split; [done|]. unfold backlog in Hb. destruct Ha as (Hq & _).
      rewrite Hq in Hb. cbn [fmap list_fmap run fold_left].
      destruct (calls st); [done|]. simpl in Hb. lia.
  - cbn [fmap list_fmap run fold_left].
    destruct (one_message_step k w sent0 st (Settle 0 r) Hst eq_refl)
      as (Hst' & Hle & Hlt).
    apply IH; [done|]. destruct (calls st) as [|c cs] eqn:Hc.
    + destruct Hst as [(_ & _ & Hne & _)|(Hq & _)]; [done|].
      rewrite settle_idle by done. unfold backlog. rewrite Hq, Hc.
      simpl. lia.
    + specialize (Hlt r eq_refl). simpl in Hb.
      assert (c :: cs ≠ []) as Hne by done. specialize (Hlt Hne). lia.
Qed.

Lemma do_waits (st0 : State) (w : Work) first last :
  let st := step st0 (Message (Do w first last)) in
  let k := length (heap st0) in
  (waiting k w (sent st0) st ∨ answered w (sent st0) st) ∧
  (backlog k st <=
   length (verify_fps w first last false) + length (calls st0))%nat.
Proof.
  intros st k. subst st. unfold step, on_message, verify. cbn zeta. fields.
  fold k. set (fps := verify_fps w first last false).
  match goal with |- context [next ?s] => set (st2 := s) end.
  set (c := {| work := w; count := 0; matched := None; queues := fps;
               listening := true |}).
  assert (heap st2 !! k = Some c) as Hh.
  { subst st2. fields. rewrite lookup_app_r by done.
    by rewrite Nat.sub_diag. }
  assert (queue st2 = Some k ∧ sent st2 = sent st0 ∧ calls st2 = calls st0)
    as (Hq & Hse & Hc) by done.
  clearbody st2.
  destruct (next_waits k w st2 c Hq Hh eq_refl eq_refl)
    as [(Hw & Hb)|(Ha & Hcalls)].
  - rewrite Hse in Hw. split; [by left|]. etrans; [exact Hb|].
    unfold backlog. rewrite Hq, Hh, Hc. done.
  - rewrite Hse in Ha. split; [by right|]. unfold backlog.
    destruct Ha as (-> & _). rewrite Hcalls, Hc. lia.
Qed.

(** C6, as the code has it: every [do] command that is not overtaken
    by another [do] is answered by exactly one message, of the shape
    [{cmd: 'done', work, matched, worker}] with the work item received,
    this worker's identity, and in [matched] the index the search found:
    [d.start + o] if, while the search was live, an engine call of its
    own on a chunk [d] resolved with an offset [o >= 0], and [null]
    otherwise.  In whatever state the command arrives, at any moment of
    the run that follows either the search is still waiting for an
    outstanding engine call, has found nothing and nothing has been sent
    for it, or its one message has been sent; and once the engine has
    settled the outstanding calls, whatever the answers, the message has
    been sent. *)
Theorem one_done_per_do (st0 : State) (w : Work) first last
    (evs : list Event) :
  Forall (fun ev => is_do ev = false) evs →
  let fps := verify_fps w first last false in
  let k := length (heap st0) in
  let st1 := step st0 (Message (Do w first last)) in
  let st := run st1 evs in
  let done_with m :=
    {| Msg.cmd := "done"; Msg.work := w; Msg.matched := m;
       Msg.worker := worker_id |} in
  ((sent st = sent st0 ∧ queue st ≠ None ∧ calls st ≠ [] ∧
    ∀ i, ¬ found k st1 evs i) ∨
   (∃ m, sent st = sent st0 ++ [done_with m] ∧ queue st = None ∧
         ∀ i, m = Some i ↔ found k st1 evs i)) ∧
  ∀ rs : list Settled,
    (length fps + length (calls st0) <= length rs)%nat →
    let evs2 := evs ++ (Settle 0 <$> rs) in
    let st2 := run st (Settle 0 <$> rs) in
    calls st2 = [] ∧ queue st2 = None ∧
    ∃ m, sent st2 = sent st0 ++ [done_with m] ∧
         ∀ i, m = Some i ↔ found k st1 evs2 i.
Proof.
  intros Hevs fps k st1 st done_with.
  destruct (do_waits st0 w first last) as [Hstart Hb]. cbn zeta in Hstart, Hb.
  destruct (one_message_run _ _ _ evs _ Hstart Hevs) as [Hst Hb'].
  fold st1 in Hst, Hb, Hb'. fold st in Hst, Hb'. fold fps in Hb. split.
  - destruct (search_outcome st0 w first last evs Hevs)
      as [([sub (Hq & Hse & _)] & Hno)|
          (m & sub & (Hq & Hse & _) & Hm)];
      fold k st1 st in Hq, Hse.
    + left. split; [done|]. split; [congruence|]. split; [|done].
      destruct Hst as [(_ & _ & Hne & _)|(Hq' & _)]; [done|congruence].
    + right. eauto.
  - intros rs Hlen evs2 st2.
    destruct (settles_drain _ _ _ rs st Hst) as [(Hq & _) Hc]; [lia|].
    fold st2 in Hq, Hc.
    assert (st2 = run (step st0 (Message (Do w first last))) evs2) as E.
    { subst st2 st st1 evs2. unfold run. by rewrite fold_left_app. }
    assert (Forall (fun ev : Event => is_do ev = false) evs2) as Hevs2.
    { apply Forall_app. split; [done|apply settles_not_do]. }
    destruct (search_outcome st0 w first last evs2 Hevs2)
      as [([sub (Hq' & _)] & _)|(m & sub & (_ & Hse & _) & Hm)].
    + rewrite <- E in Hq'. congruence.
    + rewrite <- E in Hse. split; [done|]. split; [done|].
      exists m. split; [done|exact Hm].
Qed.

(** C7: for an empty range ([start > end]), whatever the state of the
    worker, no chunk is built, the engine is not called, and the [do]
    turn itself reports zero verified samples and sends the [done]
    message with [matched: null]. *)
Theorem empty_range_done (st : State) (w : Work) first last :
  last < first →
  let st' := step st (Message (Do w first last)) in
  verify_fps w first last false = [] ∧
  submitted st' = submitted st ∧ calls st' = calls st ∧
  queue st' = None ∧
  sent st' = sent st ++
    [{| Msg.cmd := "done"; Msg.work := w; Msg.matched := None;
        Msg.worker := worker_id |}] ∧
  debug st' = debug st ++
    [LogVerifying (work_id w) first last; LogDone 0].
Proof.
  intros Hlt st'. pose proof (verify_fps_empty w first last false Hlt) as E.
  split; [done|]. subst st'. unfold step, on_message, verify. cbn zeta.
  fields. rewrite E. unfold next. fields.
  rewrite lookup_app_r by done. rewrite Nat.sub_diag.
  cbn [lookup list_lookup work queues queue_next].
  erewrite emit_done_listening; cycle 1.
  { fields. rewrite lookup_app_r by done. by rewrite Nat.sub_diag. }
  { done. }
  fields. cbn [count]. by rewrite <- app_assoc.
Qed.

(** C8, as the code has it: [count] grows by the size of a chunk when the
    chunk is handed to the engine, before the engine answers.  At every
    moment of a search started at an idle worker, [count] is the number
    of templates of all chunks submitted so far (the one still with the
    engine, or the one that matched or failed, included), and this is
    the number the [done] listener reports. *)
Theorem count_tracks_submissions (st0 : State) (w : Work) first last
    (evs : list Event) :
  idle st0 → Forall (fun ev => is_do ev = false) evs →
  let st := run (step st0 (Message (Do w first last))) evs in
  ∃ c sub,
    heap st !! length (heap st0) = Some c ∧
    submitted st = submitted st0 ++ sub ∧
    count c = total sub ∧
    (queue st ≠ None ∧ done_counts st = done_counts st0 ∨
     queue st = None ∧ done_counts st = done_counts st0 ++ [total sub]).
Proof.
  intros Hidle Hevs st.
  pose proof (tracked_run _ _ _ _ evs _ (tracked_do st0 w first last Hidle)
                Hevs) as Ht.
  fold st in Ht.
  destruct Ht as [(n & d & Hr)|(n & m & mm & cs & Hf)].
  - destruct Hr as (_ & Hq & Hh & _ & Hs & _ & Hd).
    eexists _, _. split; [exact Hh|]. split; [exact Hs|]. split; [done|].
    left. split; [congruence|done].
  - destruct Hf as (_ & Hq & (qs & Hh) & _ & _ & Hs & _ & Hd).
    eexists _, _. split; [exact Hh|]. split; [exact Hs|]. split; [done|].
    by right.
Qed.

Lemma chunk_offset_in_range (w : Work) first last d idx :
  d ∈ verify_fps w first last false → 0 <= idx < size d →
  first <= start d + idx <= last.
Proof.
  intros Hin Hidx. destruct (verify_fps_covers w first last) as [Hcov _].
  apply list_elem_of_lookup in Hin as [i Hi].
  destruct (covers_lookup _ _ _ _ _ _ Hcov Hi) as (Hlo & _ & Hhi & _).
  lia.
Qed.

(** C9: when every offset the engine resolves with points into the chunk
    it was given, the index kept in [matched] and the index reported in
    the [done] message lie within [start .. end]. *)
Theorem matched_within_range (st0 : State) (w : Work) first last
    (evs : list Event) :
  idle st0 → Forall (fun ev => is_do ev = false) evs →
  let st1 := step st0 (Message (Do w first last)) in
  run_within_contract st1 evs →
  let st := run st1 evs in
  (∀ c z, heap st !! length (heap st0) = Some c → matched c = Some z →
          first <= z <= last) ∧
  (∀ msg z, msg ∈ drop (length (sent st0)) (sent st) →
            Msg.matched msg = Some z → first <= z <= last).
Proof.
  intros Hidle Hevs st1 Hcontract st.
  set (k := length (heap st0)). set (fps := verify_fps w first last false).
  set (ok := fun x : option Z => ∀ z, x = Some z → first <= z <= last).
  assert ((∃ n d, running k w fps st0 n d st) ∨
          (∃ n m mm cs, finished k w fps st0 n m mm cs st ∧ ok m ∧ ok mm))
    as Hinv.
  { assert ((∃ n d, running k w fps st0 n d st1) ∨
            (∃ n m mm cs, finished k w fps st0 n m mm cs st1 ∧ ok m ∧ ok mm))
      as Hstart.
    { destruct (tracked_do st0 w first last Hidle)
        as [(n & d & Hr)|(n & m & mm & cs & Hf)]; [left; eauto|].
      destruct Hidle as [_ Hc].
      destruct (do_spec st0 w first last Hc)
        as (_ & [(n' & d' & Hr & _)|(Hf' & _)]); [left; eauto|].
      right. exists (length fps), None, None, []. by split. }
    subst st. clearbody st1. revert st1 Hstart Hcontract.
    induction evs as [|ev evs IH]; intros st1 Hstart Hcontract; [done|].
    inversion Hevs as [|? ? Hev Hrest]; subst.
    destruct Hcontract as [Hc1 Hc2].
    cbn [run fold_left]. apply (IH Hrest); [|done]. clear IH Hc2.
    destruct Hstart as [(n & d & Hr)|(n & m & mm & cs & Hf & Hm & Hmm)].
    - destruct ev as [[w' f l| |]|[|j] r]; [done| | | |].
      + right. destruct (stop_running _ _ _ _ n d st1 Hr) as (Hf & _).
        exists (S n), None, None, [(k, d)]. by split.
      + left. rewrite (running_ignores _ _ _ _ n d st1) by done. eauto.
      + assert (no_match r ∨ ∃ idx, r = Resolved idx ∧ 0 <= idx) as [Hr'|Hr'].
        { destruct r as [idx|]; [|by left].
          destruct (Z.le_gt_cases 0 idx); [right; eauto|by left]. }
        * destruct (settle_no_match _ _ _ _ n d st1 r Hr Hr')
            as (_ & [(n' & d' & _ & Hrun' & _)|(Hf & _)]); [left; eauto|].
          right. exists (length fps), None, None, []. by split.
        * destruct Hr' as (idx & -> & Hidx).
          destruct (settle_match _ _ _ _ n d st1 idx Hr Hidx) as (Hf & _).
          right. eexists _, _, _, _. split; [exact Hf|].
          pose proof Hr as (Hl & _ & _ & Hcalls & _).
          assert (ok (Some (start d + idx))) as Hok; [|by split].
          intros z [= <-]. apply (chunk_offset_in_range w).
          { by eapply list_elem_of_lookup_2. }
          split; [done|]. apply (Hc1 k d). by rewrite Hcalls.
      + left. rewrite (running_ignores _ _ _ _ n d st1) by done. eauto.
    - right.
      destruct (finished_step _ _ _ _ n m mm cs st1 ev Hf Hev)
        as (mm' & cs' & Hf' & _ & Hmm').
      eexists _, _, _, _. split; [exact Hf'|]. split; [done|].
      destruct Hmm' as [->|(d & idx & -> & -> & Hidx & ->)]; [done|].
      destruct Hf as (_ & _ & _ & Hcalls & Hcs & _).
      destruct Hcs as [?|(d' & Hin & [= <-])]; [done|].
      intros z [= <-]. apply (chunk_offset_in_range w); [done|].
      split; [done|]. apply (Hc1 k d). by rewrite Hcalls. }
  destruct Hinv as [(n & d & Hr)|(n & m & mm & cs & Hf & Hm & Hmm)].
  - destruct Hr as (_ & _ & Hh & _ & _ & Hse & _). split.
    + intros c z Hc. rewrite Hh in Hc. by injection Hc as <-.
    + intros msg z. rewrite Hse, drop_all. by intros ?%elem_of_nil.
  - destruct Hf as (_ & _ & (qs & Hh) & _ & _ & _ & Hse & _). split.
    + intros c z Hc. rewrite Hh in Hc. injection Hc as <-. apply Hmm.
    + intros msg z. rewrite Hse, drop_app_length.
      intros ->%list_elem_of_singleton. apply Hm.
Qed.

(** ** Failures of the engine *)






(** ** Chunks and the length of [work.items] *)

Lemma covers_find batch lo hi (l : list Chunk) j :
  covers batch lo hi l → lo <= j <= hi →
  ∃ d, d ∈ l ∧ start d <= j < start d + size d.
Proof.
  revert lo. induction l as [|d r IH]; intros lo; simpl; [lia|].
  intros (Hs & Hp & Hl & _ & Hcov) Hj.
  destruct (Z.lt_ge_cases j (lo + size d)) as [Hlt|Hge].
  - exists d. split; [by left|lia].
  - destruct (IH _ Hcov) as (d' & Hin & Hd'); [lia|].
    exists d'. split; [by right|done].
Qed.

(** C10: the chunks are cut by [start], [end] and [identifyCount] alone.
    Whatever the length of [work.items], they cover the whole range, and
    the entry of a chunk for index [j] is [work.items[j]]: for an index
    in the range at or beyond the end of [work.items] it is [undefined].
    In a search without a match all these chunks, the [undefined]
    entries included, are handed to the engine. *)
Theorem chunks_ignore_items_length (st0 : State) (w : Work) first last
    (rs : list Settled) :
  0 <= first <= last → Z.of_nat (length (items w)) <= last →
  let fps := verify_fps w first last false in
  total fps = last - first + 1 ∧
  concat (indices <$> fps) = seqZ first (last - first + 1) ∧
  (∀ d i, d ∈ fps → (i < length (fmds d))%nat →
          fmds d !! i = Some (item_at w (start d + Z.of_nat i))) ∧
  (∀ j, first <= j <= last → Z.of_nat (length (items w)) <= j →
        ∃ d i, d ∈ fps ∧ start d + Z.of_nat i = j ∧
               fmds d !! i = Some None) ∧
  (idle st0 → Forall no_match rs → (length fps <= length rs)%nat →
   submitted (run (step st0 (Message (Do w first last))) (Settle 0 <$> rs))
   = submitted st0 ++ fps).
Proof.
  intros Hrange Hshort fps.
  destruct (verify_fps_covers w first last) as [Hcov Hfm].
  fold fps in Hcov, Hfm.
  assert (∀ d i, d ∈ fps → (i < length (fmds d))%nat →
                 fmds d !! i = Some (item_at w (start d + Z.of_nat i)))
    as Hentry.
  { intros d i Hin Hi. rewrite Forall_forall in Hfm.
    rewrite (Hfm d Hin) in *. rewrite length_fmap in Hi.
    unfold indices in *. rewrite length_seqZ in Hi.
    rewrite list_lookup_fmap, lookup_seqZ_lt by lia. done. }
  split; [eapply covers_total; [done|lia]|].
  split; [by eapply covers_indices|]. split; [done|]. split.
  - intros j Hj Hout.
    destruct (covers_find _ _ _ _ j Hcov Hj) as (d & Hin & Hd).
    exists d, (Z.to_nat (j - start d)). split; [done|].
    split; [lia|]. rewrite Hentry; [|done|unfold size in Hd; lia].
    f_equal. unfold item_at.
    destruct (Z.ltb_spec (start d + Z.of_nat (Z.to_nat (j - start d))) 0);
      [done|].
    apply lookup_ge_None. lia.
  - intros Hidle Hrs Hlen.
    destruct (quiet_search st0 w first last rs Hidle Hrs Hlen)
      as (_ & _ & _ & _ & _ & Hs & _).
    fold fps in Hs. by rewrite firstn_all in Hs.
Qed.

(** ** Further properties of the partitioner *)

Lemma covers_start batch lo hi (l : list Chunk) i d :
  covers batch lo hi l → l !! i = Some d →
  start d = lo + Z.of_nat i * batch.
Proof.
  revert lo i. induction l as [|d0 r IH]; intros lo i; [done|].
  intros (Hs & Hp & Hl & Hfull & Hcov). destruct i as [|i].
  - intros [= <-]. lia.
  - cbn [lookup list_lookup]. intros Hi.
    assert (size d0 = batch) as Hsz.
    { apply Hfull. intros ->. by destruct i. }
    rewrite (IH _ _ Hcov Hi), Hsz. lia.
Qed.

Lemma covers_length batch lo hi (l : list Chunk) :
  0 < batch → covers batch lo hi l → lo <= hi + 1 →
  Z.of_nat (length l) = (hi - lo) / batch + 1.
Proof.
  intros Hb. assert ((-1) / batch = -1) as Hneg.
  { symmetry. apply Z.div_unique with (r := batch - 1); lia. }
  revert lo. induction l as [|d r IH]; intros lo.
  - simpl. intros Hhi Hlo. replace (hi - lo) with (-1) by lia. lia.
  - intros (Hs & Hp & Hl & Hfull & Hcov) Hlo.
    cbn [length]. rewrite Nat2Z.inj_succ, (IH _ Hcov) by lia.
    destruct r as [|d' r].
    + simpl in Hcov.
      rewrite (Z.div_small (hi - lo) batch) by lia.
      replace (hi - (lo + size d)) with (-1) by lia. lia.
    + rewrite Hfull by done.
      replace (hi - lo) with (hi - (lo + batch) + 1 * batch) by lia.
      rewrite Z.div_add by lia. lia.
Qed.

(** X1: the number of engine calls an exhaustive search needs and where each
    chunk begins: chunk number [i] starts at [start + i * identifyCount],
    and for [start <= end] there are
    [(end - start) / identifyCount + 1] chunks. *)
Theorem chunk_starts_and_count (w : Work) first last :
  first <= last →
  let fps := verify_fps w first last false in
  (∀ i d, fps !! i = Some d →
          start d = first + Z.of_nat i * Z.pos identifyCount) ∧
  Z.of_nat (length fps) = (last - first) / Z.pos identifyCount + 1.
Proof.
  intros Hle fps. destruct (verify_fps_covers w first last) as [Hcov _].
  fold fps in Hcov. split.
  - intros i d Hd. by eapply covers_start.
  - eapply covers_length; [lia|done|lia].
Qed.

Lemma concat_fmds (w : Work) (l : list Chunk) :
  Forall (fun d => fmds d = item_at w <$> indices d) l →
  concat (fmds <$> l) = item_at w <$> concat (indices <$> l).
Proof.
  induction 1 as [|d l Hd _ IH]; [done|].
  csimpl. by rewrite fmap_app, Hd, IH.
Qed.

Lemma items_slice (w : Work) first n :
  0 <= first → first + n <= Z.of_nat (length (items w)) →
  item_at w <$> seqZ first n =
  Some <$> take (Z.to_nat n) (drop (Z.to_nat first) (items w)).
Proof.
  intros Hf Hn. apply list_eq. intros i.
  rewrite !list_lookup_fmap.
  destruct (decide (Z.of_nat i < n)) as [Hi|Hi].
  - rewrite lookup_seqZ_lt by done.
    rewrite lookup_take_lt by lia. rewrite lookup_drop. cbn.
    unfold item_at. destruct (Z.ltb_spec (first + Z.of_nat i) 0); [lia|].
    replace (Z.to_nat (first + Z.of_nat i)) with (Z.to_nat first + i)%nat
      by lia.
    destruct (items w !! (Z.to_nat first + i)%nat) eqn:E; [done|].
    apply lookup_ge_None in E. lia.
  - rewrite lookup_seqZ_ge by lia. rewrite lookup_take_ge by lia. done.
Qed.

(** X2: the chunks, read one after the other, carry [work.items[start]] to
    [work.items[end]] in order: when the range lies within [work.items],
    the concatenation of all [fmds] is exactly that slice of the array,
    nothing lost, repeated or reordered. *)
Theorem chunks_carry_slice (w : Work) first last :
  0 <= first → last < Z.of_nat (length (items w)) →
  concat (fmds <$> verify_fps w first last false) =
  Some <$> take (Z.to_nat (last - first + 1))
             (drop (Z.to_nat first) (items w)).
Proof.
  intros Hf Hl. destruct (verify_fps_covers w first last) as [Hcov Hfm].
  rewrite (concat_fmds w _ Hfm), (covers_indices _ _ _ _ Hcov).
  destruct (Z.le_gt_cases first (last + 1)) as [Hle|Hgt].
  - apply items_slice; lia.
  - rewrite seqZ_nil by lia. replace (Z.to_nat (last - first + 1)) with 0%nat
      by lia. done.
Qed.

(** ** Book-keeping over whole runs of the worker *)

Lemma ledger_update k f (st : State) :
  (∀ c, work (f c) = work c ∧ listening (f c) = listening c) →
  ledger (update k f st) = ledger st.
Proof.
  intros Hf. unfold ledger, update. fields. apply list_eq. intros j.
  rewrite !list_lookup_fmap. destruct (decide (j = k)) as [->|Hne].
  - rewrite list_lookup_alter_eq. destruct (heap st !! k) as [c|]; [|done].
    simpl. by destruct (Hf c) as [-> ->].
  - by rewrite list_lookup_alter_ne.
Qed.

Lemma ledger_unlisten k c (st : State) :
  heap st !! k = Some c →
  ledger (update k unlisten st) = <[k := (work c, false)]> (ledger st).
Proof.
  intros Hc. unfold ledger, update. fields. apply list_eq. intros j.
  rewrite list_lookup_fmap. destruct (decide (j = k)) as [->|Hne].
  - rewrite list_lookup_alter_eq, Hc. simpl.
    rewrite list_lookup_insert_eq; [done|].
    rewrite length_fmap. by eapply lookup_lt_Some.
  - rewrite list_lookup_alter_ne by done.
    rewrite list_lookup_insert_ne by done. by rewrite list_lookup_fmap.
Qed.

Lemma quiet_refl (st : State) : quiet st st.
Proof. by unfold quiet. Qed.

Lemma quiet_effect (st st1 st2 : State) :
  quiet st st1 → effect st1 st2 → effect st st2.
Proof.
  intros (Hq & Hl & Hs) [(Hq' & Hl' & Hs')|(k & w & m & H1 & H2 & H3 & H4 & H5)].
  - left. unfold quiet. split; [congruence|]. split; congruence.
  - right. exists k, w, m. rewrite <- Hq, <- Hl, <- Hs. done.
Qed.

Lemma emit_done_effect k (st : State) :
  queue st = Some k → effect st (emit_done k st).
Proof.
  intros Hq. unfold emit_done. destruct (heap st !! k) as [c|] eqn:Hc;
    [|left; apply quiet_refl].
  destruct (listening c) eqn:Hl; [|left; apply quiet_refl].
  right. exists k, (work c), (matched c). split; [done|]. split.
  { unfold ledger. by rewrite list_lookup_fmap, Hc, <- Hl. }
  split; [done|]. split; [|done].
  change (ledger (update k unlisten st) = <[k:=(work c, false)]> (ledger st)).
  by apply ledger_unlisten.
Qed.

Lemma queue_next_effect k w pending :
  ∀ st : State, queue st = Some k → effect st (queue_next k w pending st).
Proof.
  induction pending as [|d rest IH]; intros st Hq; cbn [queue_next].
  - by apply emit_done_effect.
  - set (st1 := submit d _).
    assert (quiet st st1) as Hquiet.
    { subst st1. unfold quiet. split; [done|]. split; [|done].
      change (ledger (update k (add_count (Z.of_nat (length (fmds d))))
                        (update k (set_queues rest) st)) = ledger st).
      rewrite !ledger_update; done. }
    assert (queue st1 = Some k) as Hq1 by done.
    clearbody st1.
    destruct (identify_throws (feature w) (fmds d)).
    + eapply quiet_effect; [exact Hquiet|]. eapply quiet_effect; [|apply IH].
      * by unfold quiet.
      * done.
    + left. destruct Hquiet as (? & ? & ?). by unfold quiet.
Qed.

Lemma next_effect (st : State) : effect st (next st).
Proof.
  unfold next. destruct (queue st) as [k|] eqn:Hq; [|left; apply quiet_refl].
  destruct (heap st !! k); [|left; apply quiet_refl].
  by apply queue_next_effect.
Qed.

(** Every event other than [do]: at most the live listener runs. *)
Lemma step_effect (st : State) ev :
  is_do ev = false → effect st (step st ev).
Proof.
  intros Hev. destruct ev as [[w f l| |]|n r]; [done| | |].
  - unfold step, on_message. cbn zeta. fields.
    destruct (queue st) as [k|] eqn:Hq; [|left; by unfold quiet].
    eapply quiet_effect; [|apply emit_done_effect; fields; exact Hq].
    unfold quiet. split; [done|]. split; [|done].
    change (ledger (update k (set_queues [])
                      (log LogStopping (set_stop true st))) = ledger st).
    by rewrite ledger_update.
  - left. apply quiet_refl.
  - unfold step. destruct (calls st !! n) as [[k d]|]; [|left; apply quiet_refl].
    set (st1 := set_calls _ st).
    assert (quiet st st1) as Hquiet by done. clearbody st1.
    eapply quiet_effect; [exact Hquiet|]. destruct r as [idx|].
    + unfold on_resolved. destruct (0 <=? idx); [|apply next_effect].
      cbn zeta. set (st2 := update k _ _).
      assert (quiet st1 st2) as Hquiet2.
      { subst st2. unfold quiet. split; [done|]. split; [|done].
        change (ledger (update k (set_matched (Some (start d + idx)))
                          (log (LogFound (start d + idx)) st1)) = ledger st1).
        by rewrite ledger_update. }
      clearbody st2. eapply quiet_effect; [exact Hquiet2|].
      destruct (queue st2) as [q|] eqn:Hq2.
      * by apply emit_done_effect.
      * unfold errNext. eapply quiet_effect; [|apply next_effect].
        by unfold quiet.
    + unfold errNext. eapply quiet_effect; [|apply next_effect].
      by unfold quiet.
Qed.

Lemma reported_app (l1 l2 : list (Work * bool)) :
  reported (l1 ++ l2) = (reported l1 + reported l2)%nat.
Proof. induction l1 as [|[w b] l1 IH]; simpl; [done|]. rewrite IH. lia. Qed.

Lemma reported_insert (l : list (Work * bool)) k w :
  l !! k = Some (w, true) →
  reported (<[k := (w, false)]> l) = S (reported l).
Proof.
  revert k. induction l as [|[w' b] l IH]; intros [|k]; simpl; try done.
  - by intros [= -> ->].
  - intros H. rewrite (IH _ H). lia.
Qed.

Lemma reported_lt (l : list (Work * bool)) k w :
  l !! k = Some (w, true) → (reported l < length l)%nat.
Proof.
  assert (∀ l' : list (Work * bool), reported l' <= length l')%nat as Hle.
  { induction l' as [|[w' []] l' IH]; simpl; lia. }
  revert k. induction l as [|[w' b] l IH]; intros [|k]; simpl; try done.
  - intros [= -> ->]. specialize (Hle l). lia.
  - intros H. specialize (IH _ H). destruct b; lia.
Qed.

Lemma fst_insert (l : list (Work * bool)) k w b b' :
  l !! k = Some (w, b) → (<[k := (w, b')]> l).*1 = l.*1.
Proof.
  intros H. rewrite list_fmap_insert. simpl. apply list_insert_id.
  by rewrite list_lookup_fmap, H.
Qed.

Lemma balanced_effect (st st' : State) :
  balanced st → effect st st' → balanced st'.
Proof.
  intros (Hlen & Hlive & Hmsgs)
    [(Hq & Hl & Hs)|(k & w & m & Hq & Hk & Hq' & Hl & Hs)].
  - unfold balanced. rewrite Hq, Hl, Hs. done.
  - unfold balanced. rewrite Hq', Hl, Hs. split; [|split].
    + rewrite length_app, (reported_insert _ _ _ Hk), Hlen. simpl. lia.
    + done.
    + rewrite (fst_insert _ _ _ _ _ Hk). apply Forall_app. split; [done|].
      constructor; [|done]. simpl. split; [done|]. split; [done|].
      apply list_elem_of_fmap. exists (w, true). split; [done|].
      by eapply list_elem_of_lookup_2.
Qed.

(** [do] creates a fresh activation with its listener and makes it the
    live one; what follows in the same turn is an [effect]. *)
Lemma do_effect (st : State) (w : Work) first last :
  ∃ st2 : State,
    queue st2 = Some (length (heap st)) ∧
    ledger st2 = ledger st ++ [(w, true)] ∧ sent st2 = sent st ∧
    effect st2 (step st (Message (Do w first last))).
Proof.
  unfold step, on_message, verify. cbn zeta. fields.
  eexists. split; [|split; [|split; [|apply next_effect]]].
  - done.
  - unfold ledger. fields. by rewrite fmap_app.
  - done.
Qed.

Lemma balanced_step (st : State) ev : balanced st → balanced (step st ev).
Proof.
  intros Hb. destruct (is_do ev) eqn:Hev.
  - destruct ev as [[w f l| |]|]; try done.
    destruct (do_effect st w f l) as (st2 & Hq & Hl & Hs & Heff).
    eapply balanced_effect; [|exact Heff].
    destruct Hb as (Hlen & Hlive & Hmsgs). unfold balanced.
    rewrite Hq, Hl, Hs. split; [|split].
    + rewrite reported_app, Hlen. simpl. lia.
    + intros k [= <-]. exists w. rewrite lookup_app_r.
      * unfold ledger. by rewrite length_fmap, Nat.sub_diag.
      * unfold ledger. by rewrite length_fmap.
    + eapply Forall_impl; [exact Hmsgs|]. intros m (? & ? & Hin).
      split; [done|]. split; [done|]. rewrite fmap_app.
      apply elem_of_app. by left.
  - eapply balanced_effect; [done|]. by apply step_effect.
Qed.

Lemma balanced_run evs : ∀ st : State, balanced st → balanced (run st evs).
Proof.
  induction evs as [|ev evs IH]; intros st Hb; [done|].
  cbn [run fold_left]. apply IH. by apply balanced_step.
Qed.

Lemma balanced_init : balanced init.
Proof. unfold balanced. simpl. split; [done|]. split; [done|]. constructor. Qed.

Lemma ledger_step (st : State) ev :
  balanced st → (ledger (step st ev)).*1 = (ledger st).*1 ++ works [ev].
Proof.
  intros Hb.
  assert (∀ a b : State, effect a b → (ledger b).*1 = (ledger a).*1) as Heff.
  { intros a b [(_ & -> & _)|(k & w & m & _ & Hk & _ & -> & _)]; [done|].
    by eapply fst_insert. }
  destruct (is_do ev) eqn:Hev.
  - destruct ev as [[w f l| |]|]; try done.
    destruct (do_effect st w f l) as (st2 & Hq & Hl & Hs & He).
    rewrite (Heff _ _ He), Hl, fmap_app. done.
  - rewrite (Heff _ _ (step_effect st ev Hev)).
    destruct ev as [[w f l| |]|]; try done; simpl; by rewrite app_nil_r.
Qed.

Lemma ledger_run evs :
  ∀ st : State,
    balanced st → (ledger (run st evs)).*1 = (ledger st).*1 ++ works evs.
Proof.
  induction evs as [|ev evs IH]; intros st Hb.
  - simpl. by rewrite app_nil_r.
  - change (run st (ev :: evs)) with (run (step st ev) evs).
    rewrite IH by (by apply balanced_step).
    rewrite ledger_step by done. rewrite <- app_assoc. f_equal.
    destruct ev as [[w f l| |]|]; done.
Qed.

Lemma works_length evs : length (works evs) = dos evs.
Proof.
  induction evs as [|[[w f l| |]|] evs IH]; simpl; try done. by rewrite IH.
Qed.

(** X3: over any sequence of events from start-up, the worker never sends more
    [done] messages than it received [do] commands, and every message it
    sends is [{cmd: 'done', ..., worker: Worker.id}] for the work item of
    a [do] command it received. *)
Theorem never_more_done_than_do (evs : list Event) :
  let st := run init evs in
  (length (sent st) <= dos evs)%nat ∧
  Forall (fun m => Msg.cmd m = "done" ∧ Msg.worker m = worker_id ∧
                   Msg.work m ∈ works evs) (sent st).
Proof.
  intros st. pose proof (balanced_run evs init balanced_init) as Hb.
  pose proof (ledger_run evs init balanced_init) as Hl.
  fold st in Hb, Hl. simpl in Hl.
  destruct Hb as (Hlen & _ & Hmsgs). split.
  - rewrite <- works_length, <- Hl, length_fmap, Hlen.
    clear. induction (ledger st) as [|[w []] l IH]; simpl; lia.
  - by rewrite <- Hl.
Qed.

Lemma orphaned_effect (st st' : State) :
  orphaned st → effect st st' → orphaned st'.
Proof.
  intros (k & w & Hk & Hq)
    [(Hq' & Hl & _)|(k' & w' & m & Hlive & _ & Hq' & Hl & _)].
  - exists k, w. rewrite Hq', Hl. done.
  - exists k, w. rewrite Hq', Hl. split; [|done].
    rewrite list_lookup_insert_ne; [done|]. congruence.
Qed.

Lemma orphaned_step (st : State) ev : orphaned st → orphaned (step st ev).
Proof.
  intros Ho. destruct (is_do ev) eqn:Hev.
  - destruct ev as [[w f l| |]|]; try done.
    destruct (do_effect st w f l) as (st2 & Hq & Hl & Hs & Heff).
    eapply orphaned_effect; [|exact Heff].
    destruct Ho as (k & w' & Hk & _). exists k, w'.
    pose proof (lookup_lt_Some _ _ _ Hk) as Hlt.
    unfold ledger in Hlt. rewrite length_fmap in Hlt.
    rewrite Hq, Hl. split; [by apply lookup_app_l_Some|].
    intros [= E]. lia.
  - eapply orphaned_effect; [done|]. by apply step_effect.
Qed.

Lemma orphaned_run evs : ∀ st : State, orphaned st → orphaned (run st evs).
Proof.
  induction evs as [|ev evs IH]; intros st Ho; [done|].
  cbn [run fold_left]. apply IH. by apply orphaned_step.
Qed.

Lemma run_snoc (st : State) evs1 ev evs2 :
  run st (evs1 ++ ev :: evs2) = run (step (run st evs1) ev) evs2.
Proof. unfold run. by rewrite fold_left_app. Qed.

Lemma dos_app evs1 evs2 : dos (evs1 ++ evs2) = (dos evs1 + dos evs2)%nat.
Proof. induction evs1 as [|ev evs1 IH]; simpl; [done|]. rewrite IH. lia. Qed.

(** X4: a [do] that arrives while a search is live takes over the module
    variable [queue]: the listener of the search it overtakes can never
    run, so from then on the worker has sent strictly fewer [done]
    messages than it received [do] commands, whatever happens later. *)
Theorem overtaken_search_never_reports (evs1 evs2 : list Event)
    (w : Work) first last :
  queue (run init evs1) ≠ None →
  let evs := evs1 ++ Message (Do w first last) :: evs2 in
  (length (sent (run init evs)) < dos evs)%nat.
Proof.
  intros Hlive evs. subst evs. rewrite run_snoc.
  set (st1 := run init evs1) in *.
  pose proof (balanced_run evs1 init balanced_init) as Hb1. fold st1 in Hb1.
  assert (orphaned (step st1 (Message (Do w first last)))) as Ho.
  { destruct (queue st1) as [k|] eqn:Hq; [|done].
    destruct Hb1 as (_ & Hlive1 & _). destruct (Hlive1 k Hq) as [w' Hk].
    destruct (do_effect st1 w first last) as (st2 & Hq2 & Hl2 & _ & Heff).
    eapply orphaned_effect; [|exact Heff]. exists k, w'.
    pose proof (lookup_lt_Some _ _ _ Hk) as Hlt.
    unfold ledger in Hlt. rewrite length_fmap in Hlt.
    rewrite Hq2, Hl2. split; [by apply lookup_app_l_Some|].
    intros [= E]. lia. }
  apply (orphaned_run evs2) in Ho.
  set (st := run _ evs2) in *.
  assert (balanced st) as Hb.
  { subst st. apply balanced_run, balanced_step. exact Hb1. }
  assert ((ledger st).*1 =
          works (evs1 ++ Message (Do w first last) :: evs2)) as Hl.
  { subst st st1. rewrite <- run_snoc.
    by rewrite (ledger_run _ init balanced_init). }
  destruct Ho as (k & w' & Hk & _). destruct Hb as (Hlen & _).
  rewrite Hlen, <- works_length, <- Hl, length_fmap.
  by eapply reported_lt.
Qed.

Lemma awaits_run evs :
  ∀ st : State,
    queue st = None ∨ (∃ k w sent0, waiting k w sent0 st) →
    queue (run st evs) = None ∨
    ∃ k w sent0, waiting k w sent0 (run st evs).
Proof.
  induction evs as [|ev evs IH]; intros st Hst; [done|].
  cbn [run fold_left]. apply IH. destruct (is_do ev) eqn:Hev.
  - destruct ev as [[w f l| |]|]; try done.
    destruct (do_waits st w f l) as [[Hw|(Ha & _)] _]; eauto.
  - destruct Hst as [Hnone|(k' & w & sent0 & Hw)].
    + destruct (step_effect st ev Hev)
        as [(Hq' & _)|(? & ? & ? & Hq' & _)]; [|congruence].
      left. congruence.
    + destruct (one_message_step k' w sent0 st ev (or_introl Hw) Hev)
        as ([Hw'|(Ha & _)] & _); eauto.
Qed.

(** X5: over any sequence of events from start-up: while [queue] is not
    [null], the [done] listener of the live search is still registered
    and an engine call is outstanding, so the worker is never left waiting
    with nothing that could wake it. *)
Theorem live_queue_awaits_engine (evs : list Event) k :
  let st := run init evs in
  queue st = Some k →
  calls st ≠ [] ∧ ∃ c, heap st !! k = Some c ∧ listening c = true.
Proof.
  intros st Hq.
  destruct (awaits_run evs init (or_introl eq_refl))
    as [Hnone|(k' & w & sent0 & Hq' & _ & Hne & c & Hc & Hl & _)].
  - fold st in Hnone. congruence.
  - fold st in Hq', Hne, Hc. assert (k' = k) as -> by congruence. eauto.
Qed.

(** X6: [stop] over any reachable state: afterwards no queue is live and the
    flag is set; a second [stop] changes nothing at all; and [stop] with
    no live search touches nothing but the flag. *)
Theorem stop_is_idempotent (evs : list Event) :
  let st := run init evs in
  let st1 := step st (Message Stop) in
  queue st1 = None ∧ stop st1 = true ∧
  step st1 (Message Stop) = st1 ∧
  (queue st = None →
   sent st1 = sent st ∧ submitted st1 = submitted st ∧
   calls st1 = calls st ∧ heap st1 = heap st ∧ debug st1 = debug st).
Proof.
  intros st st1.
  pose proof (balanced_run evs init balanced_init) as (_ & Hlive & _).
  fold st in Hlive. subst st1. unfold step, on_message. cbn zeta. fields.
  destruct (queue st) as [k|] eqn:Hq.
  - destruct (Hlive k eq_refl) as [w Hk]. unfold ledger in Hk.
    rewrite list_lookup_fmap in Hk.
    destruct (heap st !! k) as [c|] eqn:Hc; [|done].
    injection Hk as _ Hl.
    erewrite emit_done_listening; cycle 1.
    { fields. rewrite list_lookup_alter_eq, Hc. reflexivity. }
    { done. }
    fields. done.
  - fields. rewrite Hq. done.
Qed.

(** X7: one turn of the event loop, in any state and for any event, sends at
    most one message; a message sent is a [done] report of this worker,
    and the turn that sends it leaves [queue] at [null]. *)
Theorem turn_sends_at_most_one (st : State) ev :
  sent (step st ev) = sent st ∨
  ∃ m, sent (step st ev) = sent st ++ [m] ∧ queue (step st ev) = None ∧
       Msg.cmd m = "done" ∧ Msg.worker m = worker_id.
Proof.
  assert (∀ a b : State, effect a b →
            sent b = sent a ∨
            ∃ m, sent b = sent a ++ [m] ∧ queue b = None ∧
                 Msg.cmd m = "done" ∧ Msg.worker m = worker_id) as Heff.
  { intros a b [(_ & _ & Hs)|(k & w & m & _ & _ & Hq & _ & Hs)];
      [by left|]. right. eauto. }
  destruct (is_do ev) eqn:Hev.
  - destruct ev as [[w f l| |]|]; try done.
    destruct (do_effect st w f l) as (st2 & _ & _ & Hs & He).
    rewrite <- Hs. by apply Heff.
  - by apply Heff, step_effect.
Qed.

(** ** Calls left over from an earlier search *)

Lemma while_loop_acc (w : Work) last stopped (n : nat) :
  ∀ current fps,
    (Z.to_nat (last - current + 1) <= n)%nat →
    while_loop w last stopped current fps =
    fps ++ while_loop w last stopped current [].
Proof.
  induction n as [|n IH]; intros current fps Hn;
    rewrite (while_loop_step w last stopped current fps),
            (while_loop_step w last stopped current []);
    destruct (decide _) as [[Hle _]|_]; try by rewrite app_nil_r.
  - lia.
  - rewrite (IH _ (fps ++ _)) by lia. rewrite (IH _ ([] ++ _)) by lia.
    by rewrite <- app_assoc.
Qed.

Lemma verify_fps_cons (w : Work) first last :
  first <= last →
  verify_fps w first last false =
  data w last first :: verify_fps w (first + Z.pos identifyCount) last false.
Proof.
  intros Hle. unfold verify_fps. rewrite while_loop_step.
  destruct (decide _) as [_|Hno]; [|by destruct Hno].
  by rewrite (while_loop_acc w last false
                (Z.to_nat (last - (first + Z.pos identifyCount) + 1))).
Qed.

(** The state right after [do], when the range is not empty and
    [identify] does not throw on the first chunk. *)
Lemma do_first_chunk (st0 : State) (w : Work) first last :
  first <= last →
  identify_throws (feature w) (fmds (data w last first)) = false →
  let k := length (heap st0) in
  let d := data w last first in
  let st1 := step st0 (Message (Do w first last)) in
  queue st1 = Some k ∧
  heap st1 !! k =
    Some {| work := w; count := size d; matched := None;
            queues := verify_fps w (first + Z.pos identifyCount) last false;
            listening := true |} ∧
  (∀ j, j ≠ k → heap st1 !! j = heap st0 !! j) ∧
  calls st1 = calls st0 ++ [(k, d)] ∧
  submitted st1 = submitted st0 ++ [d] ∧
  sent st1 = sent st0.
Proof.
  intros Hle Hthrow k d st1. subst st1 d.
  unfold step, on_message, verify. cbn zeta. fields.
  rewrite (verify_fps_cons w first last Hle). fold k.
  unfold next. fields. rewrite lookup_app_r by done.
  rewrite Nat.sub_diag. cbn [lookup list_lookup work queues queue_next].
  rewrite Hthrow. fields.
  split; [done|]. split.
  { rewrite !list_lookup_alter_eq. rewrite lookup_app_r by done.
    by rewrite Nat.sub_diag. }
  split; [|done].
  intros j Hj. rewrite !list_lookup_alter_ne by done.
  destruct (decide (j < k)%nat).
  - by rewrite lookup_app_l.
  - rewrite lookup_app_r by lia. rewrite (lookup_ge_None_2 (heap st0)) by lia.
    subst k. destruct (j - length (heap st0))%nat eqn:E; [lia|done].
Qed.

(** X8: a call of an earlier search that is still outstanding when [do]
    arrives reaches the new search through the module variable [queue]:
    if it resolves with an offset, [queue.done()] ends the new search,
    which reports [matched: null] while its first chunk is still with the
    engine and no other chunk of its range has been submitted. *)
Theorem stale_match_ends_new_search (st0 : State) (w : Work) first last
    k0 d0 cs idx :
  calls st0 = (k0, d0) :: cs → k0 ≠ length (heap st0) →
  first <= last →
  identify_throws (feature w) (fmds (data w last first)) = false →
  0 <= idx →
  let k := length (heap st0) in
  let d := data w last first in
  let st1 := step st0 (Message (Do w first last)) in
  let st2 := step st1 (Settle 0 (Resolved idx)) in
  calls st1 = (k0, d0) :: cs ++ [(k, d)] ∧
  queue st2 = None ∧
  sent st2 = sent st0 ++
    [{| Msg.cmd := "done"; Msg.work := w; Msg.matched := None;
        Msg.worker := worker_id |}] ∧
  submitted st2 = submitted st0 ++ [d] ∧
  calls st2 = cs ++ [(k, d)].
Proof.
  intros Hc Hk0 Hle Hthrow Hidx k d st1 st2.
  destruct (do_first_chunk st0 w first last Hle Hthrow)
    as (Hq1 & Hh1 & Hother & Hc1 & Hs1 & Hse1).
  fold k in Hq1, Hh1, Hother, Hc1. fold d in Hh1, Hc1, Hs1.
  fold st1 in Hq1, Hh1, Hother, Hc1, Hs1, Hse1.
  rewrite Hc in Hc1. split; [exact Hc1|].
  subst st2. clearbody st1. unfold step. rewrite Hc1.
  cbn [app lookup list_lookup delete list_delete].
  unfold on_resolved. destruct (Z.leb_spec 0 idx) as [_|?]; [|lia].
  cbn zeta. fields. rewrite Hq1.
  erewrite emit_done_listening; cycle 1.
  { fields. rewrite list_lookup_alter_ne by done. exact Hh1. }
  { done. }
  fields. unfold done_msg. cbn [work matched]. rewrite Hse1, Hs1. done.
Qed.

(** X9: a call of an earlier search that is still outstanding when [do]
    arrives and then settles without a match calls [queue.next()] on the
    new queue: the second chunk of the new search is submitted while its
    first chunk is still with the engine, so two calls of one search are
    outstanding at once. *)
Theorem stale_answer_doubles_calls (st0 : State) (w : Work) first last
    k0 d0 cs r :
  calls st0 = (k0, d0) :: cs →
  first + Z.pos identifyCount <= last →
  identify_throws (feature w) (fmds (data w last first)) = false →
  identify_throws (feature w)
    (fmds (data w last (first + Z.pos identifyCount))) = false →
  no_match r →
  let k := length (heap st0) in
  let d1 := data w last first in
  let d2 := data w last (first + Z.pos identifyCount) in
  let st1 := step st0 (Message (Do w first last)) in
  let st2 := step st1 (Settle 0 r) in
  queue st2 = Some k ∧ sent st2 = sent st0 ∧
  submitted st2 = submitted st0 ++ [d1; d2] ∧
  calls st2 = cs ++ [(k, d1); (k, d2)].
Proof.
  intros Hc Hle2 Hthrow1 Hthrow2 Hr k d1 d2 st1 st2.
  assert (first <= last) as Hle by lia.
  destruct (do_first_chunk st0 w first last Hle Hthrow1)
    as (Hq1 & Hh1 & Hother & Hc1 & Hs1 & Hse1).
  fold k in Hq1, Hh1, Hother, Hc1. fold d1 in Hh1, Hc1, Hs1.
  fold st1 in Hq1, Hh1, Hother, Hc1, Hs1, Hse1.
  rewrite Hc in Hc1.
  rewrite (verify_fps_cons w _ last Hle2) in Hh1. fold d2 in Hh1.
  subst st2. clearbody st1. unfold step. rewrite Hc1.
  cbn [app lookup list_lookup delete list_delete].
  assert (∀ s : State,
            queue s = Some k → heap s = heap st1 →
            calls s = cs ++ [(k, d1)] → submitted s = submitted st1 →
            sent s = sent st1 →
            queue (next s) = Some k ∧ sent (next s) = sent st0 ∧
            submitted (next s) = submitted st0 ++ [d1; d2] ∧
            calls (next s) = cs ++ [(k, d1); (k, d2)]) as Hnext.
  { intros s E1 E2 E3 E4 E5. unfold next. rewrite E1, E2, Hh1.
    cbn [work queues queue_next].
    assert (identify_throws (feature w) (fmds d2) = false) as ->
      by exact Hthrow2.
    fields.
    rewrite E1, E3, E4, E5, Hs1, Hse1, <- !app_assoc. done. }
  destruct r as [idx|].
  - simpl in Hr. unfold on_resolved.
    destruct (Z.leb_spec 0 idx) as [?|_]; [lia|]. by apply Hnext.
  - unfold errNext. by apply Hnext.
Qed.

End Worker.

(** ** Concrete runs *)

Example sample_chunks :
  verify_fps 4 sample 0 9 false =
  [ {| start := 0; fmds := [Some 100; Some 101; Some 102; Some 103]%nat |};
    {| start := 4; fmds := [Some 104; Some 105; Some 106; Some 107]%nat |};
    {| start := 8; fmds := [Some 108; Some 109]%nat |} ].
Proof. reflexivity. Qed.

(** A range of one index: one chunk of one template, one engine call; a
    negative answer ends the search with [matched: null] and one sample
    counted. *)
Example single_index_range :
  let st1 := step 4 7 never_throws init (Message (Do sample 5 5)) in
  let st2 := step 4 7 never_throws st1 (Settle 0 (Resolved (-1))) in
  verify_fps 4 sample 5 5 false = [{| start := 5; fmds := [Some 105%nat] |}] ∧
  length (submitted st2) = 1%nat ∧
  Msg.matched <$> sent st2 = [None] ∧ done_counts st2 = [1].
Proof. vm_compute. repeat split. Qed.

Local Abbreviation step4 := (step 4 7 never_throws).
Local Abbreviation run4 := (run 4 7 never_throws).
Local Abbreviation started := (step4 init (Message (Do sample 0 9))).
Local Abbreviation done4 m :=
  {| Msg.cmd := "done"; Msg.work := sample; Msg.matched := m;
     Msg.worker := 7 |}.

Lemma verify_partitions_range_witness :
  0 <= 9 ∧
  concat (indices <$> verify_fps 4 sample 0 9 false) = seqZ 0 (9 - 0 + 1) ∧
  total (verify_fps 4 sample 0 9 false) = 9 - 0 + 1.
Proof.
  assert (0 <= 9) as H by lia.
  pose proof (verify_partitions_range 4 sample 0 9 H) as X. cbn zeta in X.
  destruct X as (Hi & _ & _ & _ & _ & Ht). done.
Defined.

Lemma init_idle : idle (@init nat).
Proof. split; reflexivity. Defined.





(** C4 as stated fails when [identify] throws: with chunks of 4 over
    the range 0 to 9 and an engine that throws on the first chunk, the
    chunk at 4 is with the engine when [stop] arrives and no call has
    settled, yet 8 samples are reported: neither 0 nor the 4 of the chunk
    in flight. *)
Lemma stop_count_counterexample :
  let st := step 4 7 (throws_on 100) init (Message (Do sample 0 9)) in
  let st' := step 4 7 (throws_on 100) st (Message Stop) in
  start <$> submitted st = [0; 4] ∧
  start <$> (calls st).*2 = [4] ∧ size <$> (calls st).*2 = [4] ∧
  Msg.matched <$> sent st' = [None] ∧
  done_counts st' = [8] ∧ done_counts st' ≠ [0] ∧ done_counts st' ≠ [4].
Proof. vm_compute. repeat split; discriminate. Qed.

Lemma stop_cancels_witness :
  let st' := step4 started (Message Stop) in
  queue started ≠ None ∧
  stop st' = true ∧ sent st' = [done4 None] ∧ done_counts st' = [4] ∧
  (∃ d, calls started = [(0%nat, d)] ∧ size d = 4) ∧
  ∀ evs', Forall (fun ev => is_do ev = false) evs' →
    sent (run4 st' evs') = [done4 None] ∧
    submitted (run4 st' evs') = submitted started.
Proof.
  intros st'.
  assert (queue started ≠ None) as Hq by (vm_compute; discriminate).
  pose proof (stop_cancels 4 7 never_throws init sample 0 9 []
                (List.Forall_nil _) Hq) as X.
  cbn zeta in X.
  destruct X as (Hstop & _ & _ & Hsent & _ & (sub & Hsub & Hd) & Hplain &
                 _ & Hafter).
  destruct (Hplain (List.Forall_nil _))
    as (n & d & _ & _ & _ & Hc & _ & _ & _).
  split; [exact Hq|]. split; [exact Hstop|]. split; [exact Hsent|].
  split; [|split].
  - etrans; [exact Hd|]. vm_compute in Hsub. by subst sub.
  - exists d. split; [exact Hc|]. vm_compute in Hc. by injection Hc as <-.
  - intros evs' Hevs'. destruct (Hafter evs' Hevs') as [Hs1 Hs2].
    split; [exact (eq_trans Hs1 Hsent)|exact Hs2].
Defined.


(** C6 as stated fails for a [do] that is overtaken: two [do] commands
    are received, every engine call settles, and one message has been
    sent, for the second work item; the first search sends none. *)
Lemma overtaken_do_counterexample :
  let st :=
    run4 init
      [Message (Do sample 0 3); Message (Do short_sample 0 1);
       Settle 1 (Resolved (-1)); Settle 0 (Resolved (-1))] in
  calls st = [] ∧ queue st = None ∧
  sent st =
    [{| Msg.cmd := "done"; Msg.work := short_sample; Msg.matched := None;
        Msg.worker := 7 |}] ∧
  Msg.work <$> sent st ≠ [sample; short_sample].
Proof. vm_compute. repeat split; discriminate. Qed.

(** A [do] arriving after [stop], while the call of the stopped search is
    still outstanding; the call of the new search resolves with offset
    1. *)
Lemma one_done_per_do_witness :
  let st0 := run4 started [Message Stop] in
  let st1 := step4 st0 (Message (Do short_sample 0 1)) in
  let st := run4 st1 [Settle 1 (Resolved 1)] in
  let done_with m :=
    {| Msg.cmd := "done"; Msg.work := short_sample; Msg.matched := m;
       Msg.worker := 7 |} in
  (calls st1).*1 = [0; 1]%nat ∧
  sent st = sent st0 ++ [done_with (Some 1)] ∧
  ∃ m, sent (run4 st (Settle 0 <$> [Resolved (-1); Rejected; Resolved 0])) =
       sent st0 ++ [done_with m].
Proof.
  intros st0 st1 st done_with.
  assert (Forall (fun ev : Event nat => is_do ev = false)
            [Settle 1 (Resolved 1)]) as Hevs by (repeat constructor).
  pose proof (one_done_per_do 4 7 never_throws st0 short_sample 0 1 _ Hevs)
    as X.
  cbn zeta in X. destruct X as (Hnow & Hlater).
  split; [reflexivity|]. split.
  - destruct Hnow as [(_ & Hq & _)|(m & Hsent & _ & Hm)].
    { exfalso. apply Hq. reflexivity. }
    assert (found 4 7 never_throws (length (heap st0)) st1
              [Settle 1 (Resolved 1)] 1) as Hf.
    { exists [], 1%nat,
        {| start := 0; fmds := [Some 100; Some 101]%nat |}, 1, [].
      repeat split; try reflexivity. lia. }
    apply Hm in Hf. rewrite Hf in Hsent. exact Hsent.
  - destruct (Hlater [Resolved (-1); Rejected; Resolved 0])
      as (_ & _ & m & Hm & _).
    + vm_compute; lia.
    + exists m. exact Hm.
Defined.

Lemma empty_range_done_witness :
  let st' := step4 init (Message (Do sample 3 2)) in
  2 < 3 ∧ verify_fps 4 sample 3 2 false = [] ∧ submitted st' = [] ∧
  sent st' =
    [{| Msg.cmd := "done"; Msg.work := sample; Msg.matched := None;
        Msg.worker := 7 |}] ∧
  done_counts st' = [0].
Proof.
  intros st'. assert (2 < 3) as H by lia.
  pose proof (empty_range_done 4 7 never_throws init sample 3 2 H) as X.
  cbn zeta in X. destruct X as (Hfps & Hsub & _ & _ & Hsent & Hdebug).
  split; [exact H|]. split; [exact Hfps|]. split; [exact Hsub|].
  split; [exact Hsent|]. unfold done_counts. subst st'. rewrite Hdebug.
  reflexivity.
Defined.

(** C8 as stated fails: with chunks of 4 over the range 0 to 9, [count] is
    4, not 0, while the first chunk is still with the engine, and a search
    that ends by a match on its first chunk reports 4 verified samples,
    not 0. *)
Lemma count_at_resolution_counterexample :
  let st2 := step4 started (Settle 0 (Resolved 1)) in
  start <$> (calls started).*2 = [0] ∧
  count <$> heap started !! 0%nat = Some 4 ∧
  count <$> heap started !! 0%nat ≠ Some 0 ∧
  Msg.matched <$> sent st2 = [Some 1] ∧
  done_counts st2 = [4] ∧ done_counts st2 ≠ [0].
Proof. vm_compute. repeat split; discriminate. Qed.

Lemma count_tracks_submissions_witness :
  let st := run4 started [Settle 0 (Resolved 1)] in
  ∃ c, heap st !! 0%nat = Some c ∧ count c = total (submitted st) ∧
       count c = 4.
Proof.
  intros st.
  assert (Forall (fun ev : Event nat => is_do ev = false)
            [Settle 0 (Resolved 1)]) as Hevs by (repeat constructor).
  pose proof (count_tracks_submissions 4 7 never_throws init sample 0 9 _
                init_idle Hevs) as X.
  cbn zeta in X. destruct X as (c & sub & Hc & Hsub & Hcount & _).
  exists c. split; [exact Hc|]. subst st. rewrite Hsub. split; [exact Hcount|].
  rewrite Hcount. vm_compute in Hsub. by subst sub.
Defined.

Lemma matched_within_range_witness :
  let st := run4 started [Settle 0 (Resolved (-1)); Settle 0 (Resolved 1)] in
  run_within_contract 4 7 never_throws started
    [Settle 0 (Resolved (-1)); Settle 0 (Resolved 1)] ∧
  Msg.matched <$> sent st = [Some 5] ∧
  ∀ msg z, msg ∈ sent st → Msg.matched msg = Some z → 0 <= z <= 9.
Proof.
  intros st.
  assert (Forall (fun ev : Event nat => is_do ev = false)
            [Settle 0 (Resolved (-1)); Settle 0 (Resolved 1)]) as Hevs
    by (repeat constructor).
  assert (run_within_contract 4 7 never_throws started
            [Settle 0 (Resolved (-1)); Settle 0 (Resolved 1)]) as Hcontract.
  { cbn [run_within_contract within_contract]. split; [|split; [|exact I]].
    - intros k d Hcall. vm_compute in Hcall. injection Hcall as <- <-.
      reflexivity.
    - intros k d Hcall. vm_compute in Hcall. injection Hcall as <- <-.
      reflexivity. }
  pose proof (matched_within_range 4 7 never_throws init sample 0 9 _
                init_idle Hevs Hcontract) as X.
  cbn zeta in X. destruct X as (_ & Hmsg).
  split; [exact Hcontract|]. split; [reflexivity|].
  intros msg z Hin. apply Hmsg. exact Hin.
Defined.

Lemma chunks_ignore_items_length_witness :
  let fps := verify_fps 4 short_sample 0 9 false in
  0 <= 0 <= 9 ∧ Z.of_nat (length (items short_sample)) <= 9 ∧
  total fps = 9 - 0 + 1 ∧
  (∃ d i, d ∈ fps ∧ start d + Z.of_nat i = 9 ∧ fmds d !! i = Some None) ∧
  submitted
    (run4 (step4 init (Message (Do short_sample 0 9)))
       (Settle 0 <$> [Resolved (-1); Resolved (-1); Resolved (-1)])) = fps.
Proof.
  intros fps.
  assert (0 <= 0 <= 9) as Hrange by lia.
  assert (Z.of_nat (length (items short_sample)) <= 9) as Hshort
    by (vm_compute; discriminate).
  pose proof (chunks_ignore_items_length 4 7 never_throws init short_sample
                0 9 [Resolved (-1); Resolved (-1); Resolved (-1)]
                Hrange Hshort) as X.
  cbn zeta in X. destruct X as (Htot & _ & _ & Hundef & Hsub).
  split; [exact Hrange|]. split; [exact Hshort|]. split; [exact Htot|].
  split.
  - apply Hundef; [lia|exact Hshort].
  - apply Hsub; [exact init_idle| |vm_compute; lia].
    repeat constructor; vm_compute; reflexivity.
Defined.

(** ** Instances of the further properties of the worker *)

Lemma chunk_starts_and_count_witness :
  0 <= 9 ∧
  length (verify_fps 4 sample 0 9 false) = 3%nat ∧
  ∀ i d, verify_fps 4 sample 0 9 false !! i = Some d →
         start d = 0 + Z.of_nat i * 4.
Proof.
  assert (0 <= 9) as H by lia.
  pose proof (chunk_starts_and_count 4 sample 0 9 H) as X. cbn zeta in X.
  destruct X as (Hstart & Hlen). split; [exact H|]. split; [|exact Hstart].
  apply Nat2Z.inj. etrans; [exact Hlen|]. reflexivity.
Defined.

Lemma chunks_carry_slice_witness :
  0 <= 2 ∧ 7 < Z.of_nat (length (items sample)) ∧
  concat (fmds <$> verify_fps 4 sample 2 7 false) =
  Some <$> [102; 103; 104; 105; 106; 107]%nat.
Proof.
  assert (0 <= 2) as H1 by lia.
  assert (7 < Z.of_nat (length (items sample))) as H2 by (vm_compute; done).
  split; [exact H1|]. split; [exact H2|].
  exact (chunks_carry_slice 4 sample 2 7 H1 H2).
Defined.

(** Two [do] commands in a row: the first search is overtaken, and after
    the engine has answered every call one message stands against two
    commands. *)
Lemma overtaken_search_never_reports_witness :
  let evs1 := [Message (Do sample 0 9)] in
  let evs2 := [Settle 0 (Resolved (-1)); Settle 0 (Resolved 1);
               Settle 0 (Resolved (-1)); Settle 0 (Resolved (-1))] in
  let evs := evs1 ++ Message (Do short_sample 0 5) :: evs2 in
  queue (run4 init evs1) ≠ None ∧
  (length (sent (run4 init evs)) < dos evs)%nat ∧
  calls (run4 init evs) = [] ∧ length (sent (run4 init evs)) = 1%nat.
Proof.
  intros evs1 evs2 evs.
  assert (queue (run4 init evs1) ≠ None) as Hq by (vm_compute; discriminate).
  split; [exact Hq|]. split.
  - exact (overtaken_search_never_reports 4 7 never_throws evs1 evs2
             short_sample 0 5 Hq).
  - split; reflexivity.
Defined.

Lemma live_queue_awaits_engine_witness :
  let st := run4 init [Message (Do sample 0 9); Settle 0 (Resolved (-1))] in
  queue st = Some 0%nat ∧ calls st ≠ [].
Proof.
  intros st. assert (queue st = Some 0%nat) as Hq by reflexivity.
  split; [exact Hq|].
  exact (proj1 (live_queue_awaits_engine 4 7 never_throws _ 0%nat Hq)).
Defined.

(** [stop], then a new [do] while the call of the stopped search is still
    outstanding, then that call resolves with offset 2. *)
Lemma stale_match_ends_new_search_witness :
  let st0 := run4 started [Message Stop] in
  let st1 := step4 st0 (Message (Do short_sample 0 5)) in
  let st2 := step4 st1 (Settle 0 (Resolved 2)) in
  length (calls st0) = 1%nat ∧
  Msg.work <$> sent st2 = [sample; short_sample] ∧
  Msg.matched <$> sent st2 = [None; None] ∧
  length (calls st2) = 1%nat.
Proof.
  intros st0 st1 st2.
  assert (calls st0 =
          [(0%nat,
            {| start := 0;
               fmds := [Some 100; Some 101; Some 102; Some 103]%nat |})])
    as Hc by reflexivity.
  assert (0%nat ≠ length (heap st0)) as Hk by (vm_compute; discriminate).
  assert (0 <= 5) as Hle by lia.
  assert (0 <= 2) as Hidx by lia.
  pose proof (stale_match_ends_new_search 4 7 never_throws st0 short_sample
                0 5 _ _ _ 2 Hc Hk Hle eq_refl Hidx) as X.
  cbn zeta in X. destruct X as (_ & _ & Hsent & _ & Hcalls).
  split; [reflexivity|]. subst st2 st1. rewrite Hsent, Hcalls.
  split; [reflexivity|]. split; reflexivity.
Defined.

Lemma stale_answer_doubles_calls_witness :
  let st0 := run4 started [Message Stop] in
  let st1 := step4 st0 (Message (Do short_sample 0 5)) in
  let st2 := step4 st1 (Settle 0 (Resolved (-1))) in
  (calls st2).*1 = [1; 1]%nat ∧ start <$> (calls st2).*2 = [0; 4] ∧
  length (sent st2) = length (sent st0).
Proof.
  intros st0 st1 st2.
  assert (calls st0 =
          [(0%nat,
            {| start := 0;
               fmds := [Some 100; Some 101; Some 102; Some 103]%nat |})])
    as Hc by reflexivity.
  assert (0 + 4 <= 5) as Hle by lia.
  assert (no_match (Resolved (-1))) as Hr by (simpl; lia).
  pose proof (stale_answer_doubles_calls 4 7 never_throws st0 short_sample
                0 5 _ _ _ (Resolved (-1)) Hc Hle eq_refl eq_refl Hr) as X.
  cbn zeta in X. destruct X as (_ & Hsent & _ & Hcalls).
  subst st2 st1. rewrite Hsent, Hcalls. repeat split; reflexivity.
Defined.

(** * Properties of the bridge class *)

Section BridgeFacts.

Import Bridge.

Context {Blob : Type}.

(** ** [normalize] *)

Lemma fill_codes_spec (units : list Z) n :
  ∀ i buff,
    (i + n)%nat = length units → length buff = length units →
    fill_codes units n i buff =
    take i buff ++ ((fun c => c mod 256) <$> drop i units).
Proof.
  induction n as [|n IH]; intros i buff Hi Hlen; cbn [fill_codes].
  - rewrite drop_ge by lia. rewrite take_ge by lia. by rewrite app_nil_r.
  - assert (i < length units)%nat as Hlt by lia.
    destruct (lookup_lt_is_Some_2 units i Hlt) as [c Hc].
    rewrite IH by (rewrite ?length_insert; lia).
    rewrite Hc. cbn [default from_option]. unfold id.
    assert (<[i := c mod 256]> buff !! i = Some (c mod 256)) as Hi'.
    { apply list_lookup_insert_eq. lia. }
    rewrite (take_S_r _ _ _ Hi'), take_insert_ge by lia.
    rewrite (drop_S units c i Hc). rewrite <- app_assoc. done.
Qed.

Lemma normalize_Str (units : list Z) :
  normalize (Str units) = ArrayBuf ((fun c => c mod 256) <$> units).
Proof.
  unfold normalize. f_equal.
  rewrite (fill_codes_spec units (length units) 0);
    [done|lia|by rewrite length_replicate].
Qed.

(** X10: [normalize] turns a string into an [ArrayBuffer] of as many bytes as
    the string has code units, byte [i] being code unit [i] modulo 256; a
    string all of whose code units are below 256 is kept byte for byte. *)
Theorem normalize_string (units : list Z) :
  ∃ bytes,
    normalize (Str units) = ArrayBuf bytes ∧
    length bytes = length units ∧
    (∀ i c, units !! i = Some c → bytes !! i = Some (c mod 256)) ∧
    Forall (fun b => 0 <= b < 256) bytes ∧
    (Forall (fun c => 0 <= c < 256) units → bytes = units).
Proof.
  exists ((fun c => c mod 256) <$> units).
  split; [apply normalize_Str|]. split; [by rewrite length_fmap|].
  split; [|split].
  - intros i c Hc. by rewrite list_lookup_fmap, Hc.
  - apply Forall_fmap, Forall_true. intros c. simpl.
    apply Z.mod_pos_bound. lia.
  - intros Hsmall. induction Hsmall as [|c l Hc _ IH]; [done|].
    csimpl. rewrite IH. f_equal. apply Z.mod_small. done.
Qed.

(** X11: code units above 255 are cut down to their low byte: two strings
    whose code units agree modulo 256 give the same buffer. *)
Theorem normalize_truncates (units1 units2 : list Z) :
  Forall2 (fun a b => a mod 256 = b mod 256) units1 units2 →
  normalize (Str units1) = normalize (Str units2).
Proof.
  intros H. rewrite !normalize_Str. f_equal.
  induction H as [|a b l1 l2 Hab _ IH]; [done|]. csimpl. by rewrite Hab, IH.
Qed.

(** X12: for a [Uint8Array] or [Buffer], [normalize] hands out the whole
    underlying [ArrayBuffer]: the result is the bytes the view shows only
    when the view starts at offset 0 and spans the buffer. *)
Theorem normalize_view (buffer : list Z) (byteOffset len : nat) :
  (byteOffset + len <= length buffer)%nat →
  normalize (Bytes buffer byteOffset len) = ArrayBuf buffer ∧
  (normalize (Bytes buffer byteOffset len) =
     ArrayBuf (view_bytes buffer byteOffset len) ↔
   byteOffset = 0%nat ∧ len = length buffer).
Proof.
  intros Hvalid. split; [done|]. unfold normalize, view_bytes. split.
  - intros [= E]. apply (f_equal length) in E.
    rewrite length_take, length_drop in E. lia.
  - intros [-> ->]. by rewrite drop_0, firstn_all.
Qed.

(** ** [doOp] *)

(** *** Starting *)

Lemma ready_emit a (b : Object Blob) : ready (emit a b) = ready b.
Proof. reflexivity. Qed.

Lemma enrollWithSamples_emit a (b : Object Blob) : enrollWithSamples (emit a b) = enrollWithSamples b.
Proof. reflexivity. Qed.

Lemma fingers_emit a (b : Object Blob) : fingers (emit a b) = fingers b.
Proof. reflexivity. Qed.

Lemma session_emit a (b : Object Blob) : session (emit a b) = session b.
Proof. reflexivity. Qed.

Lemma stopping_emit a (b : Object Blob) : stopping (emit a b) = stopping b.
Proof. reflexivity. Qed.

Lemma packing_emit a (b : Object Blob) : packing (emit a b) = packing b.
Proof. reflexivity. Qed.

Lemma out_emit a (b : Object Blob) : out (emit a b) = out b ++ [a].
Proof. reflexivity. Qed.

Lemma ready_set_fingers f (b : Object Blob) : ready (set_fingers f b) = ready b.
Proof. reflexivity. Qed.

Lemma enrollWithSamples_set_fingers f (b : Object Blob) : enrollWithSamples (set_fingers f b) = enrollWithSamples b.
Proof. reflexivity. Qed.

Lemma fingers_set_fingers f (b : Object Blob) : fingers (set_fingers f b) = f.
Proof. reflexivity. Qed.

Lemma session_set_fingers f (b : Object Blob) : session (set_fingers f b) = session b.
Proof. reflexivity. Qed.

Lemma stopping_set_fingers f (b : Object Blob) : stopping (set_fingers f b) = stopping b.
Proof. reflexivity. Qed.

Lemma packing_set_fingers f (b : Object Blob) : packing (set_fingers f b) = packing b.
Proof. reflexivity. Qed.

Lemma out_set_fingers f (b : Object Blob) : out (set_fingers f b) = out b.
Proof. reflexivity. Qed.

Lemma ready_set_session s (b : Object Blob) : ready (set_session s b) = ready b.
Proof. reflexivity. Qed.

Lemma enrollWithSamples_set_session s (b : Object Blob) : enrollWithSamples (set_session s b) = enrollWithSamples b.
Proof. reflexivity. Qed.

Lemma fingers_set_session s (b : Object Blob) : fingers (set_session s b) = fingers b.
Proof. reflexivity. Qed.

Lemma session_set_session s (b : Object Blob) : session (set_session s b) = s.
Proof. reflexivity. Qed.

Lemma stopping_set_session s (b : Object Blob) : stopping (set_session s b) = stopping b.
Proof. reflexivity. Qed.

Lemma packing_set_session s (b : Object Blob) : packing (set_session s b) = packing b.
Proof. reflexivity. Qed.

Lemma out_set_session s (b : Object Blob) : out (set_session s b) = out b.
Proof. reflexivity. Qed.

Lemma ready_set_stopping l (b : Object Blob) : ready (set_stopping l b) = ready b.
Proof. reflexivity. Qed.

Lemma enrollWithSamples_set_stopping l (b : Object Blob) : enrollWithSamples (set_stopping l b) = enrollWithSamples b.
Proof. reflexivity. Qed.

Lemma fingers_set_stopping l (b : Object Blob) : fingers (set_stopping l b) = fingers b.
Proof. reflexivity. Qed.

Lemma session_set_stopping l (b : Object Blob) : session (set_stopping l b) = session b.
Proof. reflexivity. Qed.

Lemma stopping_set_stopping l (b : Object Blob) : stopping (set_stopping l b) = l.
Proof. reflexivity. Qed.

Lemma packing_set_stopping l (b : Object Blob) : packing (set_stopping l b) = packing b.
Proof. reflexivity. Qed.

Lemma out_set_stopping l (b : Object Blob) : out (set_stopping l b) = out b.
Proof. reflexivity. Qed.

Lemma ready_set_packing l (b : Object Blob) : ready (set_packing l b) = ready b.
Proof. reflexivity. Qed.

Lemma enrollWithSamples_set_packing l (b : Object Blob) : enrollWithSamples (set_packing l b) = enrollWithSamples b.
Proof. reflexivity. Qed.

Lemma fingers_set_packing l (b : Object Blob) : fingers (set_packing l b) = fingers b.
Proof. reflexivity. Qed.

Lemma session_set_packing l (b : Object Blob) : session (set_packing l b) = session b.
Proof. reflexivity. Qed.

Lemma stopping_set_packing l (b : Object Blob) : stopping (set_packing l b) = stopping b.
Proof. reflexivity. Qed.

Lemma packing_set_packing l (b : Object Blob) : packing (set_packing l b) = l.
Proof. reflexivity. Qed.

Lemma out_set_packing l (b : Object Blob) : out (set_packing l b) = out b.
Proof. reflexivity. Qed.

Create Rewrite HintDb parts.

#[local] Hint Rewrite
  ready_emit enrollWithSamples_emit fingers_emit session_emit
  stopping_emit packing_emit out_emit ready_set_fingers
  enrollWithSamples_set_fingers fingers_set_fingers session_set_fingers stopping_set_fingers
  packing_set_fingers out_set_fingers ready_set_session enrollWithSamples_set_session
  fingers_set_session session_set_session stopping_set_session packing_set_session
  out_set_session ready_set_stopping enrollWithSamples_set_stopping fingers_set_stopping
  session_set_stopping stopping_set_stopping packing_set_stopping out_set_stopping
  ready_set_packing enrollWithSamples_set_packing fingers_set_packing session_set_packing
  stopping_set_packing packing_set_packing out_set_packing
  : parts.

Ltac parts := autorewrite with parts in *.

Lemma link_reports_snoc (acts : list (Action Blob)) a :
  link_reports (acts ++ [a]) =
  link_reports acts ++
  match a with
  | SendMessage _ (WithStatus s) => if is_link s then [s] else []
  | _ => []
  end.
Proof.
  unfold link_reports. rewrite omap_app.
  destruct a as [| ? [s| |] | | |]; try done.
  simpl. by destruct (is_link s).
Qed.

Lemma data_reports_snoc name (acts : list (Action Blob)) a :
  data_reports name (acts ++ [a]) =
  data_reports name acts ++
  match a with
  | SendMessage n (WithData d) => if decide (n = name) then [d] else []
  | _ => []
  end.
Proof.
  unfold data_reports. rewrite omap_app.
  destruct a as [| n [|d|] | | |]; try done.
  simpl. by destruct (decide (n = name)).
Qed.

Lemma template_reports_snoc (acts : list (Action Blob)) a :
  template_reports (acts ++ [a]) =
  template_reports acts ++
  match a with
  | SendMessage n (WithTemplate fs) =>
      if decide (n = "enroll-finished") then [fs] else []
  | _ => []
  end.
Proof.
  unfold template_reports. rewrite omap_app.
  destruct a as [| n [| |fs] | | |]; try done.
  simpl. by destruct (decide (n = "enroll-finished")).
Qed.

Lemma template_reports_app (l1 l2 : list (Action Blob)) :
  template_reports (l1 ++ l2) = template_reports l1 ++ template_reports l2.
Proof. apply omap_app. Qed.

Lemma template_reports_cons (a : Action Blob) l :
  template_reports (a :: l) =
  match a with
  | SendMessage n (WithTemplate fs) =>
      if decide (n = "enroll-finished") then [fs] else []
  | _ => []
  end ++ template_reports l.
Proof.
  destruct a as [| n [| |fs] | | |]; try done.
  unfold template_reports. simpl. by destruct (decide _).
Qed.

Lemma acquired_pending_snoc (ks : list (Continuation Blob)) k :
  acquired_pending (ks ++ [k]) =
  acquired_pending ks ++
  match k with ThenAcquired d => [d] | _ => [] end.
Proof. unfold acquired_pending. rewrite omap_app. by destruct k. Qed.

Ltac tally :=
  cbn [is_enroll] in *; parts;
  repeat (rewrite link_reports_snoc || rewrite data_reports_snoc ||
          rewrite template_reports_snoc || rewrite acquired_pending_snoc);
  cbn [is_link app]; repeat case_decide; rewrite ?app_nil_r; try done.

Lemma run_app (b : Object Blob) (evs1 evs2 : list (Event Blob)) :
  run b (evs1 ++ evs2) = run (run b evs1) evs2.
Proof. apply fold_left_app. Qed.

Lemma delete_last_added {A} (l : list A) (k : A) :
  (l ++ [k]) !! length l = Some k ∧ delete (length l) (l ++ [k]) = l.
Proof.
  induction l as [|a l [IH1 IH2]]; [done|]. split; [exact IH1|].
  change (a :: delete (length l) (l ++ [k]) = a :: l). by rewrite IH2.
Qed.

Lemma command_starts op acquiring (b : Object Blob) :
  ready b = true → op ≠ ID_STOP →
  let b1 := run b (command op acquiring b) in
  session b1 = Some (op, None) ∧
  fingers b1 = (if is_enroll op then Some [] else fingers b) ∧
  ready b1 = true ∧ enrollWithSamples b1 = enrollWithSamples b ∧
  stopping b1 = stopping b ∧ packing b1 = packing b ∧
  link_reports (out b1) = link_reports (out b) ∧
  (∀ n, data_reports n (out b1) = data_reports n (out b)) ∧
  template_reports (out b1) = template_reports (out b).
Proof.
  intros Hr Hop b1. subst b1. unfold command, run.
  destruct (delete_last_added (stopping b) (ThenStart op)) as [Hl Hd].
  destruct acquiring; cbn [fold_left step]; unfold doOp; rewrite Hr;
    unfold stopAcquire; parts.
  - rewrite Hl, Hd. unfold resume, startAcquire.
    destruct op; try done; parts; cbn [is_enroll]; split_and!; intros;
      tally.
  - unfold resume, startAcquire.
    destruct op; try done; parts; cbn [is_enroll]; split_and!; intros;
      tally.
Qed.

(** *** Link statuses are reported once per change *)

Lemma squeeze_head x l s : x = Some s → head (squeeze x l) ≠ Some s.
Proof.
  intros ->. induction l as [|a l IH]; cbn; [done|].
  destruct (decide (Some s = Some a)) as [E|E]; [done|].
  cbn. congruence.
Qed.

Lemma squeeze_no_repeat x l i s :
  squeeze x l !! i = Some s → squeeze x l !! S i ≠ Some s.
Proof.
  revert x i. induction l as [|a l IH]; intros x i; cbn; [done|].
  destruct (decide (x = Some a)) as [E|E]; [apply IH|].
  destruct i as [|i]; cbn.
  - intros [= ->]. pose proof (squeeze_head (Some s) l s eq_refl) as H.
    destruct (squeeze (Some s) l); cbn in *; congruence.
  - apply IH.
Qed.

Lemma on_device_link op x s d a (b : Object Blob) :
  session b = Some (op, x) →
  let b' := on_device s d a b in
  session b' = Some (op, if is_link s then Some s else x) ∧
  link_reports (out b') =
    link_reports (out b) ++ squeeze x (if is_link s then [s] else []).
Proof.
  intros Hs b'. subst b'. unfold on_device. rewrite Hs.
  destruct s; cbn [is_link squeeze]; unfold link, stopAcquire, resume, pack;
    repeat case_decide; repeat case_match; parts; subst;
    (split; [try done|]); tally.
Qed.

Lemma squeeze_cons x s l :
  squeeze x (s :: l) = squeeze x [s] ++ squeeze (Some s) l.
Proof. cbn. case_decide; subst; done. Qed.

Lemma link_events_cons s d a (evs : list (Event Blob)) :
  link_events (Device s d a :: evs) =
  (if is_link s then [s] else []) ++ link_events evs.
Proof. unfold link_events. cbn. by destruct (is_link s). Qed.

Lemma link_run op (evs : list (Event Blob)) : ∀ (b : Object Blob) x,
  session b = Some (op, x) →
  Forall (fun ev => is_device ev = true) evs →
  link_reports (out (run b evs)) =
    link_reports (out b) ++ squeeze x (link_events evs).
Proof.
  induction evs as [|ev evs IH]; intros b x Hs Hall.
  - cbn. by rewrite app_nil_r.
  - apply Forall_cons in Hall as [Hd Hall].
    destruct ev as [| s d a | |]; try done.
    change (run b (Device s d a :: evs))
      with (run (on_device s d a b) evs).
    destruct (on_device_link op x s d a b Hs) as [Hs' Hl].
    rewrite (IH _ _ Hs' Hall), Hl, <- app_assoc, link_events_cons.
    f_equal. destruct (is_link s); [|done].
    symmetry. apply squeeze_cons.
Qed.

(** X13: every change of the reader's [connected]/[disconnected] status is
    reported once.  While the device only reports to the callback of one
    [startAcquire], the statuses sent in [acquire-status] or
    [enroll-status] messages are the reported ones with every repetition
    of the status before left out; so no two consecutive messages carry
    the same status, and the first differs from what [xstatus] held. *)
Theorem link_reported_once op x (b : Object Blob) (evs : list (Event Blob)) :
  session b = Some (op, x) →
  Forall (fun ev => is_device ev = true) evs →
  let sent := squeeze x (link_events evs) in
  link_reports (out (run b evs)) = link_reports (out b) ++ sent ∧
  (∀ i s, sent !! i = Some s → sent !! S i ≠ Some s) ∧
  (∀ s, x = Some s → head sent ≠ Some s).
Proof.
  intros Hs Hall sent. split; [by apply (link_run op)|].
  split; [intros i s; apply squeeze_no_repeat|].
  intros s; apply squeeze_head.
Qed.

(** X14: every acquire or enroll command starts with [xstatus] at [null]:
    once the command reached a ready object (and the device stopped, if it
    was acquiring), the first [connected] or [disconnected] status the
    device reports is sent whatever was sent before the command, and the
    later ones are sent once per change. *)
Theorem fresh_command_reports_link op acquiring (b : Object Blob)
    (evs : list (Event Blob)) :
  ready b = true → op ≠ ID_STOP →
  Forall (fun ev => is_device ev = true) evs →
  link_reports (out (run b (command op acquiring b ++ evs))) =
    link_reports (out b) ++ squeeze None (link_events evs).
Proof.
  intros Hr Hop Hall. rewrite run_app.
  destruct (command_starts op acquiring b Hr Hop)
    as (Hs & _ & _ & _ & _ & _ & Hl & _).
  by rewrite (link_run op _ _ None Hs Hall), Hl.
Qed.

(** *** Enrolling *)

Lemma on_device_enroll x s d a (b : Object Blob) fs :
  session b = Some (ID_ENROLL, x) → fingers b = Some fs →
  let b' := on_device s d a b in
  let got := match s with complete => [d] | _ => [] end in
  fingers b' = Some (fs ++ got) ∧
  data_reports "enroll-complete" (out b') =
    data_reports "enroll-complete" (out b) ++ got ∧
  enrollWithSamples b' = enrollWithSamples b ∧
  (s ≠ enrolled →
   packing b' = packing b ∧ stopping b' = stopping b ∧
   template_reports (out b') = template_reports (out b)).
Proof.
  intros Hs Hf b' got. subst b' got. unfold on_device. rewrite Hs.
  destruct s; unfold link, stopAcquire, resume, pack;
    repeat case_decide; cbn [is_enroll]; parts; rewrite ?Hf;
    repeat case_match; parts; rewrite ?Hf, ?app_nil_r;
    split_and!; intros; tally.
Qed.

Lemma completes_cons s d a (evs : list (Event Blob)) :
  completes (Device s d a :: evs) =
  match s with complete => [d] | _ => [] end ++ completes evs.
Proof. unfold completes. cbn. by destruct s. Qed.

Lemma enroll_run (evs : list (Event Blob)) : ∀ (b : Object Blob) x fs,
  session b = Some (ID_ENROLL, x) → fingers b = Some fs →
  Forall (fun ev => is_device ev = true) evs →
  let b' := run b evs in
  fingers b' = Some (fs ++ completes evs) ∧
  data_reports "enroll-complete" (out b') =
    data_reports "enroll-complete" (out b) ++ completes evs ∧
  enrollWithSamples b' = enrollWithSamples b ∧
  (∃ x', session b' = Some (ID_ENROLL, x')) ∧
  (Forall (fun ev => is_enrolled ev = false) evs →
   packing b' = packing b ∧ stopping b' = stopping b ∧
   template_reports (out b') = template_reports (out b)).
Proof.
  induction evs as [|ev evs IH]; intros b x fs Hs Hf Hall b'; subst b'.
  - cbn. rewrite !app_nil_r. split_and!; eauto.
  - apply Forall_cons in Hall as [Hd Hall].
    destruct ev as [| s d a | |]; try done.
    change (run b (Device s d a :: evs))
      with (run (on_device s d a b) evs).
    destruct (on_device_enroll x s d a b fs Hs Hf) as (Hf' & Hr & Hw & Hk).
    destruct (on_device_link ID_ENROLL x s d a b Hs) as [Hs' _].
    destruct (IH _ _ _ Hs' Hf' Hall) as (IHf & IHr & IHw & IHs & IHk).
    rewrite completes_cons, IHf, IHr, Hr, IHw, Hw, <- !app_assoc.
    split_and!; try done.
    intros [He Hne]%Forall_cons.
    destruct IHk as (-> & -> & ->); [done|].
    apply Hk. by destruct s.
Qed.

(** X15: an enrollment collects exactly the samples of its own [complete]
    reports.  After an enroll command reached a ready object, and while
    the device only reports to its callback, [this.fingers] is the list
    of the samples reported [complete] since, in order, whatever it held
    before; each was sent once in an [enroll-complete] message. *)
Theorem enroll_collects_samples acquiring (b : Object Blob)
    (evs : list (Event Blob)) :
  ready b = true →
  Forall (fun ev => is_device ev = true) evs →
  let b' := run b (command ID_ENROLL acquiring b ++ evs) in
  fingers b' = Some (completes evs) ∧
  data_reports "enroll-complete" (out b') =
    data_reports "enroll-complete" (out b) ++ completes evs.
Proof.
  intros Hr Hall b'. subst b'. rewrite run_app.
  destruct (command_starts ID_ENROLL acquiring b Hr)
    as (Hs & Hf & _ & _ & _ & _ & _ & Hd & _); [done|].
  destruct (enroll_run evs _ None [] Hs Hf Hall) as (Hf' & Hd' & _).
  by rewrite Hf', Hd', Hd.
Qed.

Lemma finish_packs x tmpl acquiring (b : Object Blob) fs :
  session b = Some (ID_ENROLL, x) → fingers b = Some fs →
  out (run b (finish tmpl acquiring b)) =
  out b ++
    [SetStatus "Enroll finished" true; SetStatus "Stopping acquire" false] ++
    (if acquiring
     then [DpStopAcquire; SetStatus "Acquire stopped" false]
     else [SetStatus "Stop not required" false]) ++
    [SetStatus "Notify for enroll finished" false;
     SendMessage "enroll-finished"
       (WithTemplate (files (enrollWithSamples b) fs tmpl))].
Proof.
  intros Hs Hf. unfold finish, run.
  destruct (delete_last_added (stopping b) (ThenPack tmpl)) as [Hl Hd].
  assert (∀ fl, (packing b ++ [fl]) !! length (packing b) = Some fl) as Hp
    by (intros fl; apply delete_last_added).
  destruct acquiring; cbn [fold_left step app]; unfold on_device;
    rewrite Hs; unfold stopAcquire; parts; rewrite ?Hl, ?Hd;
    unfold resume, pack; parts; rewrite Hf;
    destruct (enrollWithSamples b); parts; rewrite Hp; parts;
    rewrite <- !app_assoc; reflexivity.
Qed.

(** The [enrolled] report while the device is acquiring: the object asks
    the device to stop and waits; nothing is packed before the device
    calls back. *)
Lemma enrolled_waits x tmpl (b : Object Blob) :
  session b = Some (ID_ENROLL, x) →
  let b' := step b (Device enrolled tmpl true) in
  out b' =
    out b ++ [SetStatus "Enroll finished" true;
              SetStatus "Stopping acquire" false; DpStopAcquire] ∧
  packing b' = packing b ∧ stopping b' = stopping b ++ [ThenPack tmpl].
Proof.
  intros Hs b'. subst b'. cbn [step]. unfold on_device. rewrite Hs.
  unfold stopAcquire. parts. rewrite <- !app_assoc. done.
Qed.

(** X16: the template message of an enrollment carries the template and,
    with [enrollWithSamples], the samples of this enrollment, and goes
    out only after the device has stopped.  After an enroll command
    reached a ready object and the device reported samples and statuses,
    the [enrolled] report makes the object call [dp.stopAcquire] if the
    device is acquiring, and not otherwise; while the device has not
    called back nothing is packed or sent; then one [enroll-finished]
    message is sent, whose archive holds the reported template under
    [TMPL] and, if [enrollWithSamples] is set, the samples reported
    [complete] since the command, in order. *)
Theorem enroll_archive acquiring (b : Object Blob)
    (evs : list (Event Blob)) tmpl acquiring' :
  ready b = true →
  Forall (fun ev => is_device ev = true) evs →
  Forall (fun ev => is_enrolled ev = false) evs →
  let archive := files (enrollWithSamples b) (completes evs) tmpl in
  let b2 := run b (command ID_ENROLL acquiring b ++ evs) in
  let b3 :=
    run b (command ID_ENROLL acquiring b ++ evs ++
           finish tmpl acquiring' b) in
  let waiting := step b2 (Device enrolled tmpl true) in
  out b3 =
    out b2 ++
      [SetStatus "Enroll finished" true;
       SetStatus "Stopping acquire" false] ++
      (if acquiring'
       then [DpStopAcquire; SetStatus "Acquire stopped" false]
       else [SetStatus "Stop not required" false]) ++
      [SetStatus "Notify for enroll finished" false;
       SendMessage "enroll-finished" (WithTemplate archive)] ∧
  template_reports (out b3) = template_reports (out b) ++ [archive] ∧
  out waiting =
    out b2 ++ [SetStatus "Enroll finished" true;
               SetStatus "Stopping acquire" false; DpStopAcquire] ∧
  packing waiting = packing b2 ∧
  template_reports (out waiting) = template_reports (out b).
Proof.
  intros Hr Hall Hne. cbn zeta.
  rewrite (app_assoc (command ID_ENROLL acquiring b) evs), !run_app.
  destruct (command_starts ID_ENROLL acquiring b Hr)
    as (Hs & Hf & _ & Hw & Hk & Hp & _ & _ & Ht); [done|].
  set (b1 := run b (command ID_ENROLL acquiring b)) in *.
  destruct (enroll_run evs b1 None [] Hs Hf Hall)
    as (Hf' & _ & Hw' & [x' Hs'] & Hrest).
  destruct (Hrest Hne) as (Hp' & Hk' & Ht').
  set (b2 := run b1 evs) in *.
  assert (finish tmpl acquiring' b = finish tmpl acquiring' b2) as ->
    by (unfold finish; rewrite Hp', Hk', Hp, Hk; done).
  pose proof (finish_packs x' tmpl acquiring' b2 _ Hs' Hf') as Hout.
  rewrite Hw', Hw in Hout. cbn [app] in Hout.
  destruct (enrolled_waits x' tmpl b2 Hs') as (Hwout & Hwp & _).
  split; [exact Hout|]. split; [|split; [exact Hwout|split; [exact Hwp|]]].
  - rewrite Hout, template_reports_app, Ht', Ht. f_equal.
    destruct acquiring'; cbn [app]; rewrite !template_reports_cons;
      cbn [app]; by rewrite decide_True by done.
  - rewrite Hwout, template_reports_app, Ht', Ht.
    rewrite !template_reports_cons. cbn [app]. by rewrite app_nil_r.
Qed.

(** X17: no file of the archive overwrites another.  The names passed to
    [zip.file] are pairwise distinct: [TMPL] and [S1], [S2], ... with the
    decimal position of each sample; so the archive has one entry for the
    template and one for each sample. *)
Theorem files_named_apart with_samples (samples : list Blob) (data : Blob) :
  NoDup (files with_samples samples data).*1 ∧
  length (files with_samples samples data) =
    S (if with_samples then length samples else 0) ∧
  (∀ i, files true samples data !! S i =
        (fun f => ("S" +:+ pretty (S i), f)) <$> samples !! i).
Proof.
  assert (∀ i, (files true samples data).*1 !! i =
               match i with
               | O => Some "TMPL"
               | S i' => (fun _ => "S" +:+ pretty (S i')) <$> samples !! i'
               end) as Hnames.
  { intros i. rewrite list_lookup_fmap. unfold files.
    destruct i as [|i]; [done|].
    change (fst <$> imap (fun i f => ("S" +:+ pretty (S i), f)) samples !! i
            = (fun _ => "S" +:+ pretty (S i)) <$> samples !! i).
    rewrite list_lookup_imap. by destruct (samples !! i). }
  split_and!.
  - destruct with_samples; [|repeat constructor; by intros ?%elem_of_nil].
    apply NoDup_alt. intros i j n. rewrite !Hnames.
    destruct i as [|i], j as [|j]; try done.
    + intros [= <-]. destruct (samples !! j); [|done].
      cbn [fmap option_fmap option_map String.append]. discriminate.
    + destruct (samples !! i); [|done].
      cbn [fmap option_fmap option_map String.append].
      intros [= <-]. discriminate.
    + destruct (samples !! i), (samples !! j); try done.
      cbn [fmap option_fmap option_map String.append].
      intros [= <-] [= E]. f_equal.
      pose proof (pretty_nat_inj _ _ E) as E'. lia.
  - unfold files. cbn [length]. f_equal. destruct with_samples; [|done].
    by rewrite length_imap.
  - intros i. unfold files.
    change (imap (fun i f => ("S" +:+ pretty (S i), f)) samples !! i
            = (fun f => ("S" +:+ pretty (S i), f)) <$> samples !! i).
    by rewrite list_lookup_imap.
Qed.

(** *** Acquiring *)

Lemma acquired_pending_delete (ks : list (Continuation Blob)) n k :
  ks !! n = Some k →
  acquired_pending ks ≡ₚ
    match k with ThenAcquired d => [d] | _ => [] end ++
    acquired_pending (delete n ks).
Proof.
  intros Hk. unfold acquired_pending.
  rewrite (omap_Permutation _ _ _ (delete_Permutation _ _ _ Hk)).
  by destruct k.
Qed.

Lemma acquired_step op x (b : Object Blob) (ev : Event Blob) :
  session b = Some (op, x) → is_enroll op = false →
  Forall (fun k => is_restart k = false) (stopping b) →
  is_report ev = true →
  let b' := step b ev in
  (∃ x', session b' = Some (op, x')) ∧
  Forall (fun k => is_restart k = false) (stopping b') ∧
  acquired b' ≡ₚ acquired b ++ completes [ev].
Proof.
  intros Hs Hop Hks Hev b'. subst b'.
  destruct ev as [| s d a | n |]; try done; cbn [step].
  - destruct (on_device_link op x s d a b Hs) as [Hs' _].
    split; [eauto|]. clear Hs'. unfold on_device. rewrite Hs, Hop.
    unfold acquired, completes.
    destruct s; unfold link, stopAcquire, resume, pack;
      repeat case_decide; repeat case_match; parts;
      (split;
       [first [done|apply Forall_app; split; [done|by repeat constructor]]|]);
      tally.
    + by rewrite <- app_assoc.
    + rewrite <- !app_assoc. apply Permutation_app_head.
      apply Permutation_app_comm.
  - change (completes [Stopped n]) with (@nil Blob).
    destruct (stopping b !! n) as [k|] eqn:Hk;
      [|split_and!; eauto; by rewrite app_nil_r].
    assert (is_restart k = false) as Hnk
      by (eapply Forall_lookup_1 in Hks; eauto).
    pose proof (acquired_pending_delete _ _ _ Hk) as Hperm.
    assert (Forall (fun k => is_restart k = false) (delete n (stopping b)))
      as Hks' by (by apply Forall_delete).
    unfold acquired.
    destruct k; try done; unfold resume, pack; repeat case_match; parts;
      (split; [eauto|]); (split; [done|]); tally;
      rewrite ?app_nil_r; rewrite Hperm; cbn [app]; try done.
    rewrite <- app_assoc. done.
Qed.

(** X18: in an acquire no sample is lost or reported twice.  While the
    device reports to the callback of an acquire and [dp.stopAcquire]
    calls back, in any order, the samples sent in [acquire-complete]
    messages together with those still waiting for the device to stop
    are those before plus the samples reported [complete], each once. *)
Theorem acquire_reports_each_sample op x (evs : list (Event Blob)) :
  ∀ (b : Object Blob),
  session b = Some (op, x) → is_enroll op = false →
  Forall (fun k => is_restart k = false) (stopping b) →
  Forall (fun ev => is_report ev = true) evs →
  acquired (run b evs) ≡ₚ acquired b ++ completes evs.
Proof.
  revert x. induction evs as [|ev evs IH]; intros x b Hs Hop Hks Hall.
  - cbn. by rewrite app_nil_r.
  - apply Forall_cons in Hall as [Hev Hall].
    destruct (acquired_step op x b ev Hs Hop Hks Hev)
      as ([x' Hs'] & Hks' & Hperm).
    change (run b (ev :: evs)) with (run (step b ev) evs).
    rewrite (IH x' _ Hs' Hop Hks' Hall), Hperm, <- app_assoc.
    apply Permutation_app_head. unfold completes.
    change (ev :: evs) with ([ev] ++ evs). by rewrite omap_app.
Qed.

End BridgeFacts.


Lemma normalize_truncates_witness :
  Forall2 (fun a b => a mod 256 = b mod 256) [321; 66] [65; 66] ∧
  Bridge.normalize (Bridge.Str [321; 66]) = Bridge.ArrayBuf [65; 66].
Proof.
  assert (Forall2 (fun a b => a mod 256 = b mod 256) [321; 66] [65; 66])
    as H by (repeat constructor).
  split; [exact H|].
  etrans; [exact (normalize_truncates _ _ H)|]. reflexivity.
Defined.

Lemma normalize_view_witness :
  (2 + 3 <= length [1; 2; 3; 4; 5; 6] )%nat ∧
  Bridge.view_bytes [1; 2; 3; 4; 5; 6] 2 3 = [3; 4; 5] ∧
  Bridge.normalize (Bridge.Bytes [1; 2; 3; 4; 5; 6] 2 3) =
    Bridge.ArrayBuf [1; 2; 3; 4; 5; 6].
Proof.
  assert (2 + 3 <= length [1; 2; 3; 4; 5; 6]%Z)%nat as H by (simpl; lia).
  split; [exact H|]. split; [reflexivity|].
  exact (proj1 (normalize_view _ _ _ H)).
Defined.

Lemma link_reported_once_witness :
  let b := Bridge.doOp Bridge.ID_ACQUIRE false (Bridge.initial true true) in
  let evs :=
    [Bridge.Device Bridge.connected 0 false;
     Bridge.Device Bridge.connected 0 false;
     Bridge.Device Bridge.disconnected 0 false;
     Bridge.Device Bridge.error 0 false;
     Bridge.Device Bridge.disconnected 0 false;
     Bridge.Device Bridge.connected 0 false] in
  Bridge.session b = Some (Bridge.ID_ACQUIRE, None) ∧
  Forall (fun ev => Bridge.is_device ev = true) evs ∧
  Bridge.link_reports (Bridge.out (Bridge.run b evs)) =
    [Bridge.connected; Bridge.disconnected; Bridge.connected].
Proof.
  intros b evs.
  assert (Bridge.session b = Some (Bridge.ID_ACQUIRE, None)) as Hs
    by reflexivity.
  assert (Forall (fun ev => Bridge.is_device ev = true) evs) as Hall
    by (repeat constructor).
  split; [exact Hs|]. split; [exact Hall|].
  pose proof (link_reported_once _ _ b evs Hs Hall) as X.
  cbn zeta in X. destruct X as [X _].
  etrans; [exact X|]. reflexivity.
Defined.

Lemma fresh_command_reports_link_witness :
  let b := Bridge.initial (Blob := Z) true true in
  let evs :=
    [Bridge.Device Bridge.connected 0 false;
     Bridge.Device Bridge.connected 0 false] in
  Bridge.ready b = true ∧ Bridge.ID_ENROLL ≠ Bridge.ID_STOP ∧
  Forall (fun ev => Bridge.is_device ev = true) evs ∧
  Bridge.link_reports
    (Bridge.out
       (Bridge.run b (Bridge.command Bridge.ID_ENROLL true b ++ evs))) =
    [Bridge.connected].
Proof.
  intros b evs.
  assert (Bridge.ready b = true) as Hr by reflexivity.
  assert (Bridge.ID_ENROLL ≠ Bridge.ID_STOP) as Hop by discriminate.
  assert (Forall (fun ev => Bridge.is_device ev = true) evs) as Hall
    by (repeat constructor).
  split; [exact Hr|]. split; [exact Hop|]. split; [exact Hall|].
  etrans; [exact (fresh_command_reports_link _ true b evs Hr Hop Hall)|].
  reflexivity.
Defined.

Lemma enroll_collects_samples_witness :
  let b := Bridge.initial (Blob := Z) true true in
  let evs :=
    [Bridge.Device Bridge.connected 0 false;
     Bridge.Device Bridge.complete 11 false;
     Bridge.Device Bridge.complete 12 false;
     Bridge.Device Bridge.error 0 false;
     Bridge.Device Bridge.complete 13 false] in
  Bridge.ready b = true ∧
  Forall (fun ev => Bridge.is_device ev = true) evs ∧
  Bridge.fingers
    (Bridge.run b (Bridge.command Bridge.ID_ENROLL false b ++ evs)) =
    Some [11; 12; 13].
Proof.
  intros b evs.
  assert (Bridge.ready b = true) as Hr by reflexivity.
  assert (Forall (fun ev => Bridge.is_device ev = true) evs) as Hall
    by (repeat constructor).
  split; [exact Hr|]. split; [exact Hall|].
  pose proof (enroll_collects_samples false b evs Hr Hall) as X.
  cbn zeta in X. destruct X as [X _].
  etrans; [exact X|]. reflexivity.
Defined.

Lemma enroll_archive_witness :
  let b := Bridge.initial (Blob := Z) true true in
  let evs :=
    [Bridge.Device Bridge.connected 0 false;
     Bridge.Device Bridge.complete 11 false;
     Bridge.Device Bridge.complete 12 false] in
  let archive := [("TMPL", 99); ("S1", 11); ("S2", 12)] in
  Bridge.ready b = true ∧
  Forall (fun ev => Bridge.is_device ev = true) evs ∧
  Forall (fun ev => Bridge.is_enrolled ev = false) evs ∧
  Bridge.out
    (Bridge.run b (Bridge.command Bridge.ID_ENROLL false b ++ evs ++
                   Bridge.finish 99 true b)) =
    Bridge.out (Bridge.run b (Bridge.command Bridge.ID_ENROLL false b ++ evs))
    ++ [Bridge.SetStatus "Enroll finished" true;
        Bridge.SetStatus "Stopping acquire" false;
        Bridge.DpStopAcquire;
        Bridge.SetStatus "Acquire stopped" false;
        Bridge.SetStatus "Notify for enroll finished" false;
        Bridge.SendMessage "enroll-finished" (Bridge.WithTemplate archive)] ∧
  Bridge.template_reports
    (Bridge.out
       (Bridge.run b (Bridge.command Bridge.ID_ENROLL false b ++ evs ++
                      Bridge.finish 99 true b))) =
    [archive].
Proof.
  intros b evs archive.
  assert (Bridge.ready b = true) as Hr by reflexivity.
  assert (Forall (fun ev => Bridge.is_device ev = true) evs) as Hall
    by (repeat constructor).
  assert (Forall (fun ev => Bridge.is_enrolled ev = false) evs) as Hne
    by (repeat constructor).
  split; [exact Hr|]. split; [exact Hall|]. split; [exact Hne|].
  pose proof (enroll_archive false b evs 99 true Hr Hall Hne) as X.
  cbn zeta in X. destruct X as (Hout & Ht & _).
  split.
  - etrans; [exact Hout|]. vm_compute. reflexivity.
  - etrans; [exact Ht|]. vm_compute. reflexivity.
Defined.

Lemma acquire_reports_each_sample_witness :
  let b := Bridge.doOp Bridge.ID_ACQUIRE false (Bridge.initial true true) in
  let evs :=
    [Bridge.Device Bridge.complete 11 true;
     Bridge.Device Bridge.complete 12 true;
     Bridge.Stopped 1; Bridge.Stopped 0] in
  Bridge.session b = Some (Bridge.ID_ACQUIRE, None) ∧
  Bridge.is_enroll Bridge.ID_ACQUIRE = false ∧
  Forall (fun k => Bridge.is_restart k = false) (Bridge.stopping b) ∧
  Forall (fun ev => Bridge.is_report ev = true) evs ∧
  Bridge.acquired (Bridge.run b evs) ≡ₚ [11; 12].
Proof.
  intros b evs.
  assert (Bridge.session b = Some (Bridge.ID_ACQUIRE, None)) as Hs
    by reflexivity.
  assert (Bridge.is_enroll Bridge.ID_ACQUIRE = false) as Hop by reflexivity.
  assert (Forall (fun k => Bridge.is_restart k = false) (Bridge.stopping b))
    as Hks by constructor.
  assert (Forall (fun ev => Bridge.is_report ev = true) evs) as Hall
    by (repeat constructor).
  split; [exact Hs|]. split; [exact Hop|]. split; [exact Hks|].
  split; [exact Hall|].
  exact (acquire_reports_each_sample _ _ evs b Hs Hop Hks Hall).
Defined.
